(** * A browser push/SSE demo: page script and service worker

    The repository has two scripts.  The service worker
    ([service_worker.js]) reacts to the [activate], [install] and [push]
    events.  The page script wires two buttons: [main] (the push flow)
    and [serverSentEvent] (the stream flow), and has the helper
    [urlBase64ToUint8Array].

    Conventions of the embedding:
    - a JavaScript string is a [string]; a byte of a [Uint8Array] is a
      [Z] in [0, 256);
    - browser built-ins the scripts call ([atob], [JSON.stringify],
      [JSON.parse], the DOM text setters) are modelled from their
      standards, next to the place they are used;
    - [async] functions are programs of a small free monad whose nodes
      are the [await] points; an event loop resumes them. *)

From Stdlib Require Import Ascii String ZArith Lia Sorted.
From stdpp Require Import gmap strings pretty list fin_maps.

Local Open Scope Z_scope.

(** ** Strings as the scripts use them *)

(** [s.repeat(n)]. *)
Fixpoint str_repeat (s : string) (n : nat) : string :=
  match n with
  | O => ""
  | S n' => s +:+ str_repeat s n'
  end.

(** [s.replace(/c/g, r)] for a one-character pattern [c]. *)
Fixpoint replace_all (c r : ascii) (s : string) : string :=
  match s with
  | EmptyString => EmptyString
  | String x s' =>
      String (if Ascii.eqb x c then r else x) (replace_all c r s')
  end.

(** [s.charCodeAt(i)]; [None] stands for the [NaN] of an index out of
    range. *)
Definition charCodeAt (s : string) (i : nat) : option Z :=
  match String.get i s with
  | Some c => Some (Z.of_N (N_of_ascii c))
  | None => None
  end.

(** [String.fromCharCode(b)] for a byte. *)
Definition fromCharCode (b : Z) : ascii := ascii_of_N (Z.to_N b).

(** ** [window.atob]: the forgiving-base64 decode of the Infra standard *)

Definition is_ascii_whitespace (c : ascii) : bool :=
  let n := N_of_ascii c in
  ((n =? 9) || (n =? 10) || (n =? 12) || (n =? 13) || (n =? 32))%N.

Fixpoint remove_whitespace (s : string) : string :=
  match s with
  | EmptyString => EmptyString
  | String c s' =>
      if is_ascii_whitespace c then remove_whitespace s'
      else String c (remove_whitespace s')
  end.

(** Position of a character in the base64 alphabet
    [A-Z a-z 0-9 + /]. *)
Definition alphabet_index (c : ascii) : option Z :=
  let n := Z.of_N (N_of_ascii c) in
  if ((65 <=? n) && (n <=? 90))%Z then Some (n - 65)
  else if ((97 <=? n) && (n <=? 122))%Z then Some (n - 97 + 26)
  else if ((48 <=? n) && (n <=? 57))%Z then Some (n - 48 + 52)
  else if (n =? 43)%Z then Some 62
  else if (n =? 47)%Z then Some 63
  else None.

Definition is_base64_char (c : ascii) : bool :=
  match alphabet_index c with Some _ => true | None => false end.

Fixpoint str_forallb (p : ascii -> bool) (s : string) : bool :=
  match s with
  | EmptyString => true
  | String c s' => p c && str_forallb p s'
  end.

(** Step 2 of the decode: one or two trailing [=] are dropped (when the
    length is a multiple of four, which the caller checks). *)
Fixpoint strip_padding (s : string) : string :=
  match s with
  | "" => ""
  | "=" => ""
  | "==" => ""
  | String c s' => String c (strip_padding s')
  end.

(** Steps 5 to 7: six bits per character go into a buffer; at 24 bits
    three bytes come out; a rest of 12 bits gives one byte, a rest of
    18 bits two.  [buf] is the buffer read as a number and [k] the
    number of characters in it. *)
Fixpoint decode_loop (s : string) (buf : Z) (k : nat) (out : list Z)
  : list Z :=
  match s with
  | EmptyString =>
      match k with
      | 2%nat => out ++ [buf / 16]
      | 3%nat => out ++ [buf / 1024; (buf / 4) mod 256]
      | _ => out
      end
  | String c s' =>
      let buf' := buf * 64 + default 0 (alphabet_index c) in
      match k with
      | 3%nat =>
          decode_loop s' 0 0
            (out ++ [buf' / 65536; (buf' / 256) mod 256; buf' mod 256])
      | _ => decode_loop s' buf' (S k) out
      end
  end.

Definition forgiving_base64_decode (data : string) : option (list Z) :=
  let data := remove_whitespace data in
  let data :=
    if (String.length data mod 4 =? 0)%nat then strip_padding data else data in
  if (String.length data mod 4 =? 1)%nat then None
  else if negb (str_forallb is_base64_char data) then None
  else Some (decode_loop data 0 0 []).

Fixpoint binary_string (bs : list Z) : string :=
  match bs with
  | [] => EmptyString
  | b :: bs' => String (fromCharCode b) (binary_string bs')
  end.

(** [atob(data)]: the decoded bytes as a string of code units below 256;
    [None] is the [InvalidCharacterError] it throws. *)
Definition atob (data : string) : option string :=
  binary_string <$> forgiving_base64_decode data.

(** ** [urlBase64ToUint8Array] *)

(** The [for] loop that copies [rawData] into [outputArray]; [n] counts
    the iterations left, [i] is the loop variable.  A store into a
    [Uint8Array] keeps the value modulo 256, and an index out of range
    changes nothing. *)
Fixpoint copy_loop (n i : nat) (rawData : string) (outputArray : list Z)
  : list Z :=
  match n with
  | O => outputArray
  | S n' =>
      copy_loop n' (S i) rawData
        (<[i := default 0 (charCodeAt rawData i) mod 256]> outputArray)
  end.

Definition urlBase64ToUint8Array (base64String : string)
  : option (list Z) :=
  let padding :=
    str_repeat "=" ((4 - String.length base64String mod 4) mod 4) in
  let base64 :=
    replace_all "_" "/" (replace_all "-" "+" (base64String +:+ padding)) in
  match atob base64 with
  | None => None
  | Some rawData =>
      let outputArray := replicate (String.length rawData) 0 in
      Some (copy_loop (String.length rawData) 0 rawData outputArray)
  end.

(** ** Reference base64url encoder (RFC 4648, section 5)

    Not part of the scripts: the encoding against which the round trip
    of [urlBase64ToUint8Array] is stated. *)

Definition base64url_alphabet : string :=
  "ABCDEFGHIJKLMNOPQRSTUVWXYZabcdefghijklmnopqrstuvwxyz0123456789-_".

Definition base64_alphabet : string :=
  "ABCDEFGHIJKLMNOPQRSTUVWXYZabcdefghijklmnopqrstuvwxyz0123456789+/".

Definition sextet_char (alphabet : string) (v : Z) : ascii :=
  default "A"%char (String.get (Z.to_nat v) alphabet).

Fixpoint base64_encode_with (alphabet : string) (pad : bool) (bs : list Z)
  : string :=
  let c := sextet_char alphabet in
  match bs with
  | [] => ""
  | [b0] =>
      String (c (b0 / 4)) (String (c (b0 mod 4 * 16))
        (if pad then "==" else ""))
  | [b0; b1] =>
      String (c (b0 / 4)) (String (c (b0 mod 4 * 16 + b1 / 16))
        (String (c (b1 mod 16 * 4)) (if pad then "=" else "")))
  | b0 :: b1 :: b2 :: rest =>
      String (c (b0 / 4)) (String (c (b0 mod 4 * 16 + b1 / 16))
        (String (c (b1 mod 16 * 4 + b2 / 64)) (String (c (b2 mod 64))
          (base64_encode_with alphabet pad rest))))
  end.

Definition base64url_encode : bool -> list Z -> string :=
  base64_encode_with base64url_alphabet.

Definition is_byte (b : Z) : Prop := 0 <= b < 256.

(** *** Vocabulary of the statements about base64 *)

(** What the two [replace] calls do to one character. *)
Definition normalise_char (c : ascii) : ascii :=
  let c1 := if Ascii.eqb c "-" then "+"%char else c in
  if Ascii.eqb c1 "_" then "/"%char else c1.

Fixpoint str_map (f : ascii -> ascii) (s : string) : string :=
  match s with
  | EmptyString => EmptyString
  | String c s' => String (f c) (str_map f s')
  end.

(** The RFC padding, read off the byte count. *)
Fixpoint pad_tail (bs : list Z) : string :=
  match bs with
  | [] => ""
  | [_] => "=="
  | [_; _] => "="
  | _ :: _ :: _ :: rest => pad_tail rest
  end.

Definition sextets : list Z := seqZ 0 64.

Ltac byte_arith :=
  unfold is_byte in *; Z.div_mod_to_equations; lia.

(** The padding the script appends to a key. *)
Definition key_padding (base64String : string) : string :=
  str_repeat "=" ((4 - String.length base64String mod 4) mod 4).

(** [c] occurs in [s]. *)
Fixpoint str_In (c : ascii) (s : string) : Prop :=
  match s with
  | EmptyString => False
  | String x s' => x = c \/ str_In c s'
  end.

(** A character of a base64url or base64 text: a letter, a digit, or
    one of [-], [_], [+], [/]. *)
Definition is_key_char (c : ascii) : bool :=
  is_base64_char (normalise_char c).

Local Close Scope Z_scope.

(** ** JSON data and the JavaScript values of the scripts

    A JSON text is represented by the data it denotes: [JSON.parse] of
    the text [JSON.stringify] made gives that data back (ECMA-262,
    25.5).  A number keeps the text of its literal; no script computes
    with one. *)

#[warnings="-register-all"]
Inductive json : Type :=
| JNull
| JBool (b : bool)
| JNum (literal : string)
| JStr (s : string)
| JArr (items : list json)
| JObj (props : gmap string json).

(** A [PushSubscription] of the Push API.  The scripts only ever
    serialise it, which calls its [toJSON()]; that returns a plain
    object. *)
Record PushSubscription := { toJSON : gmap string json }.

Inductive jsval : Type :=
| Undefined
| Plain (j : json)
| Subscription (s : PushSubscription).

(** What a [throw] or a rejected promise carries: an [Error] instance
    (also a [DOMException]) with its [name] and [message], or any other
    value. *)
Inductive thrown : Type :=
| ErrorObject (name message : string)
| NonError (v : jsval).

Definition instanceof_Error (e : thrown) : bool :=
  match e with ErrorObject _ _ => true | NonError _ => false end.

(** [error.message], read only where [error instanceof Error] holds. *)
Definition message (error : thrown) : string :=
  match error with ErrorObject _ m => m | NonError _ => "" end.

(** The text [JSON.stringify(v, null, indent)] returns. *)
Record json_text := { indent : nat; denotes : json }.

Definition JSON_stringify (v : jsval) (indent : nat) : option json_text :=
  match v with
  | Undefined => None
  | Plain j => Some {| indent := indent; denotes := j |}
  | Subscription s => Some {| indent := indent; denotes := JObj (toJSON s) |}
  end.

(** Messages of the engine's own errors.  Their wording differs between
    browsers; nothing depends on it. *)
Definition msg_not_json : string := "Unexpected token in JSON".
Definition msg_undefined_not_json : string :=
  "'undefined' is not valid JSON".
Definition msg_read_of_null : string :=
  "Cannot read properties of null or undefined".
Definition msg_invalid_character : string :=
  "The string to be decoded is not correctly encoded".

(** [JSON.parse(text)].  The argument is what [JSON.stringify] returned;
    when that is [undefined], [JSON.parse] reads it as the text
    [undefined], which is no JSON, and throws a [SyntaxError]. *)
Definition JSON_parse (text : option json_text) : json + thrown :=
  match text with
  | Some t => inl (denotes t)
  | None => inr (ErrorObject "SyntaxError" msg_undefined_not_json)
  end.

(** [j.name] on parsed JSON data, for the names the scripts read
    ([publicKey], [title], [body]): none is an index or [length], and
    none is defined on a built-in prototype, so only a plain object can
    have one.  Reading a property of [null] throws a [TypeError]. *)
Definition get_property (j : json) (name : string) : jsval + thrown :=
  match j with
  | JNull => inr (ErrorObject "TypeError" msg_read_of_null)
  | JObj props =>
      inl (match props !! name with Some v => Plain v | None => Undefined end)
  | _ => inl Undefined
  end.

(** Own enumerable properties, as the spread [...j] copies them. *)
Definition index_props (items : list json) : gmap string json :=
  list_to_map (imap (fun i v => (pretty i, v)) items).

Fixpoint chars (s : string) : list json :=
  match s with
  | EmptyString => []
  | String c s' => JStr (String c EmptyString) :: chars s'
  end.

Definition own_properties (j : json) : gmap string json :=
  match j with
  | JObj props => props
  | JArr items => index_props items
  | JStr s => index_props (chars s)
  | _ => ∅
  end.

(** [{ ...target, ...source }]: the properties of [source] are copied
    over those of [target]. *)
Definition spread (target source : gmap string json) : gmap string json :=
  source ∪ target.

(** ** Asynchronous functions

    An [async] function is a tree: it returns, throws, performs a
    synchronous operation [Do o] of its context and goes on with the
    result, or suspends at [Await r] until the platform settles the
    promise of the request [r]. *)

Inductive result (X : Type) : Type :=
| Fulfilled (x : X)
| Rejected (e : thrown).
Arguments Fulfilled {X} x.
Arguments Rejected {X} e.

Section Prog.
Context {Op Req : Type -> Type}.

Inductive prog (A : Type) : Type :=
| Ret (a : A)
| Throw (e : thrown)
| Do {X : Type} (o : Op X) (k : X -> prog A)
| Await {X : Type} (r : Req X) (k : result X -> prog A).
Arguments Ret {A} a.
Arguments Throw {A} e.
Arguments Do {A X} o k.
Arguments Await {A X} r k.

Fixpoint bind {A B} (p : prog A) (f : A -> prog B) : prog B :=
  match p with
  | Ret a => f a
  | Throw e => Throw e
  | Do o k => Do o (fun x => bind (k x) f)
  | Await r k => Await r (fun s => bind (k s) f)
  end.

(** [try { p } catch (error) { h error }]. *)
Fixpoint try_catch {A} (p : prog A) (h : thrown -> prog A) : prog A :=
  match p with
  | Ret a => Ret a
  | Throw e => h e
  | Do o k => Do o (fun x => try_catch (k x) h)
  | Await r k => Await r (fun s => try_catch (k s) h)
  end.

Definition do {X} (o : Op X) : prog X := Do o Ret.

(** [await promise]: the value of a fulfilled promise; a rejected one
    throws its reason. *)
Definition await {X} (r : Req X) : prog X :=
  Await r (fun s =>
    match s with Fulfilled x => Ret x | Rejected e => Throw e end).

(** A synchronous computation that returns or throws. *)
Definition lift {A} (x : A + thrown) : prog A :=
  match x with inl a => Ret a | inr e => Throw e end.

(** *** Running a program

    The context interprets the operations on its state [St].  What a
    run did is recorded: the operations performed and the requests
    made to the platform. *)
Context {St : Type} (perform : forall X, Op X -> St -> X * St).

Inductive entry : Type :=
| Did {X : Type} (o : Op X)
| Asked {X : Type} (r : Req X).

(** Runs the synchronous part of [p]: up to its end or its next
    [await]. *)
Fixpoint advance {A} (p : prog A) (st : St) : St * list entry * prog A :=
  match p with
  | Do o k =>
      let '(x, st1) := perform _ o st in
      let '(st2, log, q) := advance (k x) st1 in
      (st2, Did o :: log, q)
  | Await r k => (st, [Asked r], Await r k)
  | _ => (st, [], p)
  end.

(** One resumption of a suspended program: while it waited the rest
    of the world changed the state ([meanwhile]), and the platform
    settles the promise it waits for ([answer]). *)
Record turn := {
  meanwhile : St -> St;
  answer : forall X, Req X -> result X
}.

(** Runs [p] through the resumptions [ts], as far as they reach; the
    resumptions not used are returned too. *)
Fixpoint run {A} (ts : list turn) (p : prog A) (st : St)
  : St * list entry * prog A * list turn :=
  let '(st1, log1, p1) := advance p st in
  match ts, p1 with
  | t :: ts', Await r k =>
      let '(st2, log2, p2, rest) :=
        run ts' (k (answer t _ r)) (meanwhile t st1) in
      (st2, log1 ++ log2, p2, rest)
  | _, _ => (st1, log1, p1, ts)
  end.

(** [p] never ends by throwing: every [throw] in it is caught. *)
Inductive safe {A} : prog A -> Prop :=
| safe_Ret a : safe (Ret a)
| safe_Do X (o : Op X) k : (forall x, safe (k x)) -> safe (Do o k)
| safe_Await X (r : Req X) k : (forall s, safe (k s)) -> safe (Await r k).

(** The requests of [p] come in strictly increasing [rank], above [lo]
    and up to [hi]: no path of [p] makes a request twice. *)
Inductive ranked (rank : forall X, Req X -> nat) {A} (lo hi : nat)
  : prog A -> Prop :=
| ranked_Ret a : (lo <= hi)%nat -> ranked rank lo hi (Ret a)
| ranked_Throw e : (lo <= hi)%nat -> ranked rank lo hi (Throw e)
| ranked_Do X (o : Op X) k :
    (forall x, ranked rank lo hi (k x)) -> ranked rank lo hi (Do o k)
| ranked_Await X (r : Req X) k :
    (lo < rank X r)%nat -> (forall s, ranked rank (rank X r) hi (k s)) ->
    ranked rank lo hi (Await r k).

(** The ranks of the requests a run recorded. *)
Definition asked_ranks (rank : forall X, Req X -> nat) (log : list entry)
  : list nat :=
  omap (fun en =>
    match en with Asked r => Some (rank _ r) | Did _ => None end) log.
End Prog.

Arguments prog : clear implicits.
Arguments entry : clear implicits.
Arguments turn : clear implicits.
Arguments Did {Op Req X} o.
Arguments Asked {Op Req X} r.
Arguments Ret {Op Req A} a.
Arguments Throw {Op Req A} e.
Arguments Do {Op Req A X} o k.
Arguments Await {Op Req A X} r k.

Global Instance prog_ret {Op Req} : MRet (prog Op Req) := fun A a => Ret a.
Global Instance prog_bind {Op Req} : MBind (prog Op Req) :=
  fun A B f p => bind p f.

(** *** Where a program writes

    [W] picks the operations that count as writes. *)
Section Writes.
Context {Op Req : Type -> Type} (W : forall X, Op X -> bool).

(** [p] performs no write. *)
Inductive write_free {A} : prog Op Req A -> Prop :=
| write_free_Ret a : write_free (Ret a)
| write_free_Throw e : write_free (Throw e)
| write_free_Do X (o : Op X) k :
    W X o = false -> (forall x, write_free (k x)) -> write_free (Do o k)
| write_free_Await X (r : Req X) k :
    (forall s, write_free (k s)) -> write_free (Await r k).

(** Once [p] has written, it does not throw any more. *)
Inductive writes_last {A} : prog Op Req A -> Prop :=
| writes_last_Ret a : writes_last (Ret a)
| writes_last_Throw e : writes_last (Throw e)
| writes_last_Do X (o : Op X) k :
    W X o = false -> (forall x, writes_last (k x)) -> writes_last (Do o k)
| writes_last_Write X (o : Op X) k :
    (forall x, safe (k x)) -> writes_last (Do o k)
| writes_last_Await X (r : Req X) k :
    (forall s, writes_last (k s)) -> writes_last (Await r k).

(** A recorded write. *)
Definition wrote (en : entry Op Req) : bool :=
  match en with
  | Did o => W _ o
  | Asked _ => false
  end.
End Writes.

(** *** What a program throws *)
Section Throws.
Context {Op Req : Type -> Type} {St : Type}.

(** [p] ends by throwing [Error] instances only, as long as the
    promises it awaits are rejected with [Error] instances only. *)
Inductive error_only {A} : prog Op Req A -> Prop :=
| error_only_Ret a : error_only (Ret a)
| error_only_Throw e : instanceof_Error e = true -> error_only (Throw e)
| error_only_Do X (o : Op X) k :
    (forall x, error_only (k x)) -> error_only (Do o k)
| error_only_Await X (r : Req X) k :
    (forall x, error_only (k (Fulfilled x))) ->
    (forall e, instanceof_Error e = true -> error_only (k (Rejected e))) ->
    error_only (Await r k).

(** The platform settles the promise of the resumption [t] by
    fulfilling it or by rejecting it with an [Error] instance (a
    [TypeError], a [SyntaxError], a [DOMException]), whatever the
    request. *)
Definition rejects_errors (t : turn Req St) : Prop :=
  forall X (r : Req X) e,
    answer t X r = Rejected e -> instanceof_Error e = true.
End Throws.

(** ** The page *)

Module Page.

(** Child nodes of the [#state] element: text nodes and the [<br>]
    elements that setting [innerText] makes of line breaks. *)
Inductive node : Type :=
| Text (data : string)
| Br.

(** Text shown in [#details]: characters, or a JSON text. *)
Inductive dom_text : Type :=
| Chars (s : string)
| Json (t : json_text).

Record page := {
  userId_value : string;          (* the value of the [#userId] input *)
  state_childNodes : list node;   (* the content of [#state] *)
  state_subscription : jsval;     (* the property [state.subscription] *)
  details_textContent : dom_text; (* the content of [#details] *)
  event_sources : list string;    (* URLs of the open [EventSource]s *)
  floating_updates : nat          (* pending [update()] promises, dropped *)
}.

Definition set_state_childNodes (nodes : list node) (pg : page) : page :=
  {| userId_value := userId_value pg;
     state_childNodes := nodes;
     state_subscription := state_subscription pg;
     details_textContent := details_textContent pg;
     event_sources := event_sources pg;
     floating_updates := floating_updates pg |}.

Definition set_state_subscription (v : jsval) (pg : page) : page :=
  {| userId_value := userId_value pg;
     state_childNodes := state_childNodes pg;
     state_subscription := v;
     details_textContent := details_textContent pg;
     event_sources := event_sources pg;
     floating_updates := floating_updates pg |}.

Definition set_details_textContent (t : dom_text) (pg : page) : page :=
  {| userId_value := userId_value pg;
     state_childNodes := state_childNodes pg;
     state_subscription := state_subscription pg;
     details_textContent := t;
     event_sources := event_sources pg;
     floating_updates := floating_updates pg |}.

Definition set_userId_value (s : string) (pg : page) : page :=
  {| userId_value := s;
     state_childNodes := state_childNodes pg;
     state_subscription := state_subscription pg;
     details_textContent := details_textContent pg;
     event_sources := event_sources pg;
     floating_updates := floating_updates pg |}.

Definition set_event_sources (urls : list string) (pg : page) : page :=
  {| userId_value := userId_value pg;
     state_childNodes := state_childNodes pg;
     state_subscription := state_subscription pg;
     details_textContent := details_textContent pg;
     event_sources := urls;
     floating_updates := floating_updates pg |}.

Definition set_floating_updates (n : nat) (pg : page) : page :=
  {| userId_value := userId_value pg;
     state_childNodes := state_childNodes pg;
     state_subscription := state_subscription pg;
     details_textContent := details_textContent pg;
     event_sources := event_sources pg;
     floating_updates := n |}.

(** The [textContent] getter of an element: the data of its text nodes,
    in order.  It is never [null] on an element. *)
Fixpoint text_of (nodes : list node) : string :=
  match nodes with
  | [] => ""
  | Text data :: rest => data +:+ text_of rest
  | Br :: rest => text_of rest
  end.

(** The [textContent] setter: one text node, none for the empty
    string. *)
Definition text_node (s : string) : list node :=
  match s with
  | EmptyString => []
  | _ => [Text s]
  end.

Definition LF : ascii := ascii_of_nat 10.
Definition CR : ascii := ascii_of_nat 13.

(** The [innerText] setter (HTML, rendered text fragment): each run of
    characters other than LF and CR becomes a text node, each LF, CR or
    CR LF a [<br>].  [text] is the run collected so far. *)
Fixpoint rendered_text_fragment (input text : string) : list node :=
  match input with
  | EmptyString => text_node text
  | String c rest =>
      if Ascii.eqb c LF then
        text_node text ++ Br :: rendered_text_fragment rest ""
      else if Ascii.eqb c CR then
        match rest with
        | String c' rest' =>
            if Ascii.eqb c' LF then
              text_node text ++ Br :: rendered_text_fragment rest' ""
            else text_node text ++ Br :: rendered_text_fragment rest ""
        | EmptyString => text_node text ++ [Br]
        end
      else rendered_text_fragment rest (text +:+ String c "")
  end.

(** Platform objects the page only passes on. *)
Variant Response : Type := a_response.
Variant ServiceWorkerRegistration : Type := a_registration.

Record RequestInit := {
  method : string;
  headers : list (string * string);
  body : option json_text
}.

(** Promises the page awaits. *)
Inductive req : Type -> Type :=
| Fetch (url : string) (init : option RequestInit) : req Response
| ResponseJson (resp : Response) : req json
| RequestPermission : req string
| Register (scriptURL : string) : req ServiceWorkerRegistration
| Subscribe (registration : ServiceWorkerRegistration)
    (userVisibleOnly : bool) (applicationServerKey : list Z)
    : req PushSubscription.

(** Synchronous operations on the page. *)
Inductive op : Type -> Type :=
| GetUserIdValue : op string
| GetSubscription : op jsval
| SetSubscription (v : jsval) : op unit
| SetDetailsTextContent (text : option json_text) : op unit
| SetStateInnerText (s : string) : op unit
| GetStateTextContent : op (option string)
| SetStateTextContent (s : string) : op unit
| Update (registration : ServiceWorkerRegistration) : op unit
| NewEventSource (url : string) : op unit.

Definition perform (X : Type) (o : op X) (pg : page) : X * page :=
  match o in op X return X * page with
  | GetUserIdValue => (userId_value pg, pg)
  | GetSubscription => (state_subscription pg, pg)
  | SetSubscription v => (tt, set_state_subscription v pg)
  | SetDetailsTextContent text =>
      (tt, set_details_textContent
             (match text with Some t => Json t | None => Chars "" end) pg)
  | SetStateInnerText s =>
      (tt, set_state_childNodes (rendered_text_fragment s "") pg)
  | GetStateTextContent => (Some (text_of (state_childNodes pg)), pg)
  | SetStateTextContent s => (tt, set_state_childNodes (text_node s) pg)
  | Update _ => (tt, set_floating_updates (S (floating_updates pg)) pg)
  | NewEventSource url =>
      (tt, set_event_sources (event_sources pg ++ [url]) pg)
  end.

Abbreviation task := (prog op req).
Abbreviation responder := (forall X : Type, req X -> result X).

(** *** The stream flow *)

(** The [onmessage] handler of the event source. *)
Definition onmessage (data : string) : task unit :=
  textContent ← do GetStateTextContent;
  do (SetStateTextContent
        (default "" textContent +:+ String LF "" +:+ data)).

Definition serverSentEvent : task unit :=
  user_id ← do GetUserIdValue;
  do (NewEventSource ("/sse?user_id=" +:+ user_id)).

(** *** [urlBase64ToUint8Array] as [main] calls it

    The key read from the fetched JSON need not be a string.  Reading
    [length] of [undefined] or [null] throws a [TypeError]; a string is
    decoded, and [atob] throws an [InvalidCharacterError]
    ([DOMException]) on a text it rejects.  Any other value (number,
    boolean, array, object) goes through JavaScript's implicit
    conversions, which are not modelled: [convert] stands for their
    outcome, whatever it is. *)
Section PushFlow.
Variable convert : json -> list Z + thrown.

Definition call_urlBase64ToUint8Array (base64String : jsval)
  : list Z + thrown :=
  match base64String with
  | Undefined | Plain JNull =>
      inr (ErrorObject "TypeError" msg_read_of_null)
  | Plain (JStr s) =>
      match urlBase64ToUint8Array s with
      | Some outputArray => inl outputArray
      | None =>
          inr (ErrorObject "InvalidCharacterError" msg_invalid_character)
      end
  | Plain j => convert j
  | Subscription s => convert (JObj (toJSON s))
  end.

(** [fetch("/vapid.json").then((resp) => resp.json())], awaited by the
    caller: a rejection of either promise rejects the chain. *)
Definition fetchVapidKeys : task json :=
  resp ← await (Fetch "/vapid.json" None);
  await (ResponseJson resp).

Definition subscribeUserToPush (vapidKeys : json)
  : task PushSubscription :=
  registration ← await (Register "service_worker.js");
  do (Update registration);;
  publicKey ← lift (get_property vapidKeys "publicKey");
  applicationServerKey ← lift (call_urlBase64ToUint8Array publicKey);
  pushSubscription ←
    await (Subscribe registration true applicationServerKey);
  mret pushSubscription.

(** The body of both [catch] clauses. *)
Definition report (error : thrown) : task unit :=
  if instanceof_Error error then do (SetStateInnerText (message error))
  else mret tt.

(** The body of the first [try]. *)
Definition subscribe_and_display : task unit :=
  keys ← fetchVapidKeys;
  _ ← await RequestPermission;
  subscription ← subscribeUserToPush keys;
  do (SetSubscription (Subscription subscription));;
  s ← do GetSubscription;
  do (SetDetailsTextContent (JSON_stringify s 4)).

(** The object literal [{ user_id: ..., ...parsed }]. *)
Definition register_body (user_id : string) (parsed : json)
  : gmap string json :=
  spread {[ "user_id" := JStr user_id ]} (own_properties parsed).

Definition register_init (user_id : string) (parsed : json)
  : RequestInit :=
  {| method := "POST";
     headers := [("Content-Type", "application/json")];
     body :=
       JSON_stringify (Plain (JObj (register_body user_id parsed))) 0 |}.

(** The body of the second [try]. *)
Definition post_registration : task unit :=
  user_id ← do GetUserIdValue;
  s ← do GetSubscription;
  parsed ← lift (JSON_parse (JSON_stringify s 0));
  _ ← await (Fetch "/register" (Some (register_init user_id parsed)));
  mret tt.

Definition main : task unit :=
  try_catch subscribe_and_display report;;
  try_catch post_registration report.

(** The argument [subscribeUserToPush] computes for
    [applicationServerKey], or what computing it throws. *)
Definition application_server_key (vapidKeys : json) : list Z + thrown :=
  match get_property vapidKeys "publicKey" with
  | inl publicKey => call_urlBase64ToUint8Array publicKey
  | inr e => inr e
  end.

(** *** The event loop of the page

    [tasks] are the handler invocations so far, each at its [await]
    or finished.  An invocation that ends by throwing leaves a
    rejected promise (or an exception) nobody handles; so does a
    dropped [update()] promise that rejects. *)
Record loop := {
  dom : page;
  tasks : list (task unit);
  history : list (entry op req);
  unhandled : list thrown
}.

Inductive event : Type :=
| ClickInitPushBtn
| ClickInitSseBtn
| Message (i : nat) (data : string)
| Settle (i : nat) (answer : responder)
| UpdateSettles (failure : option thrown)
| Input (s : string).

Definition uncaught (p : task unit) : list thrown :=
  match p with Throw e => [e] | _ => [] end.

(** Invokes the handler [p]. *)
Definition invoke (p : task unit) (l : loop) : loop :=
  let '(pg, log, q) := advance perform p (dom l) in
  {| dom := pg;
     tasks := tasks l ++ [q];
     history := history l ++ log;
     unhandled := unhandled l ++ uncaught q |}.

Definition step (l : loop) (ev : event) : loop :=
  match ev with
  | ClickInitPushBtn => invoke main l
  | ClickInitSseBtn => invoke serverSentEvent l
  | Message i data =>
      match event_sources (dom l) !! i with
      | Some _ => invoke (onmessage data) l
      | None => l
      end
  | Settle i answer =>
      match tasks l !! i with
      | Some (Await r k) =>
          let '(pg, log, q) :=
            advance perform (k (answer _ r)) (dom l) in
          {| dom := pg;
             tasks := <[i := q]> (tasks l);
             history := history l ++ log;
             unhandled := unhandled l ++ uncaught q |}
      | _ => l
      end
  | UpdateSettles failure =>
      match floating_updates (dom l) with
      | S n =>
          {| dom := set_floating_updates n (dom l);
             tasks := tasks l;
             history := history l;
             unhandled :=
               unhandled l ++
               match failure with Some e => [e] | None => [] end |}
      | O => l
      end
  | Input s =>
      {| dom := set_userId_value s (dom l);
         tasks := tasks l;
         history := history l;
         unhandled := unhandled l |}
  end.

Definition exec (l : loop) (evs : list event) : loop := foldl step l evs.

Definition load (pg : page) : loop :=
  {| dom := pg; tasks := []; history := []; unhandled := [] |}.
End PushFlow.

(** *** Vocabulary of the statements about the page *)

(** The steps of the push flow, in the order [main] reaches them. *)
Definition request_rank (X : Type) (r : req X) : nat :=
  match r with
  | Fetch url _ => if String.eqb url "/vapid.json" then 1 else 6
  | ResponseJson _ => 2
  | RequestPermission => 3
  | Register _ => 4
  | Subscribe _ _ _ => 5
  end.

(** A recorded request to [/register]. *)
Definition is_register_post (en : entry op req) : bool :=
  match en with
  | Asked r =>
      match r with
      | Fetch url _ => String.eqb url "/register"
      | _ => false
      end
  | Did _ => false
  end.

(** What a [catch] clause leaves: the record of its write and the page
    after it. *)
Definition reported (error : thrown) : list (entry op req) :=
  match error with
  | ErrorObject _ m => [Did (SetStateInnerText m)]
  | NonError _ => []
  end.

Definition reported_state (error : thrown) (pg : page) : page :=
  match error with
  | ErrorObject _ m => set_state_childNodes (rendered_text_fragment m "") pg
  | NonError _ => pg
  end.

(** [msgs.join("\n")]. *)
Fixpoint join_lines (msgs : list string) : string :=
  match msgs with
  | [] => ""
  | [m] => m
  | m :: rest => m +:+ String LF (join_lines rest)
  end.

(** Every message with a line feed before it. *)
Fixpoint newline_each (msgs : list string) : string :=
  match msgs with
  | [] => ""
  | m :: rest => String LF "" +:+ m +:+ newline_each rest
  end.

(** The operations that change [state.subscription] or [#details]. *)
Definition store_write (X : Type) (o : op X) : bool :=
  match o with
  | SetSubscription _ | SetDetailsTextContent _ => true
  | _ => false
  end.

(** The bodies of the recorded requests to [/register]. *)
Definition register_posts (log : list (entry op req)) : list json :=
  omap (fun en =>
    match en with
    | Asked r =>
        match r with
        | Fetch url (Some init) =>
            if String.eqb url "/register" then denotes <$> body init
            else None
        | _ => None
        end
    | Did _ => None
    end) log.

(** The texts written to [#state] through [innerText]. *)
Definition state_writes (log : list (entry op req)) : list string :=
  omap (fun en =>
    match en with
    | Did o =>
        match o with
        | SetStateInnerText s => Some s
        | _ => None
        end
    | Asked _ => None
    end) log.

(** *** Concrete pages, answers and resumptions *)

(** A freshly loaded page with [user_id] typed in. *)
Definition fresh_page (user_id : string) : page :=
  {| userId_value := user_id;
     state_childNodes := [];
     state_subscription := Undefined;
     details_textContent := Chars "";
     event_sources := [];
     floating_updates := 0 |}.

(** An engine whose implicit conversion of a key that is not a string
    throws; used where a statement needs a concrete one. *)
Definition convert_throws (j : json) : list Z + thrown :=
  inr (ErrorObject "TypeError" "Cannot convert object to primitive value").


(** The implicit conversions of the engine, where they throw, throw an
    [Error] instance: a key parsed from JSON has no method of its own
    that could throw anything else. *)
Definition throws_errors (convert : json -> list Z + thrown) : Prop :=
  forall j e, convert j = inr e -> instanceof_Error e = true.

(** A platform on which every promise of the page is fulfilled. *)
Definition fulfilling (keys : json) (subscription : PushSubscription)
  : responder :=
  fun X r =>
    match r in req X return result X with
    | Fetch _ _ => Fulfilled a_response
    | ResponseJson _ => Fulfilled keys
    | RequestPermission => Fulfilled "granted"
    | Register _ => Fulfilled a_registration
    | Subscribe _ _ _ => Fulfilled subscription
    end.

(** A platform that rejects whatever is pending with [e]. *)
Definition rejecting (e : thrown) : responder := fun X r => Rejected e.

(** A resumption during which nothing else happened, and one during
    which the user typed [s] into [#userId]. *)
Definition quietly (answer : responder) : turn req page :=
  {| meanwhile := fun pg => pg; answer := answer |}.

Definition typing (s : string) (answer : responder) : turn req page :=
  {| meanwhile := set_userId_value s; answer := answer |}.

Definition example_keys : json :=
  JObj {[ "publicKey" := JStr "SGVsbG8" ]}.

Definition example_subscription : PushSubscription :=
  {| toJSON :=
       {[ "endpoint" := JStr "https://push.example/send/1";
          "expirationTime" := JNull;
          "keys" := JObj {[ "p256dh" := JStr "BPub"; "auth" := JStr "c2Vj" ]} ]} |}.

Definition granted : responder :=
  fulfilling example_keys example_subscription.

(** A subscription whose JSON form has a [user_id] field of its own. *)
Definition subscription_with_user_id : PushSubscription :=
  {| toJSON :=
       {[ "endpoint" := JStr "https://push.example/send/1";
          "user_id" := JStr "mallory" ]} |}.

(** The [user_id] fields of the recorded registration bodies. *)
Definition posted_user_ids (log : list (entry op req))
  : list (jsval + thrown) :=
  (fun j => get_property j "user_id") <$> register_posts log.

(** Two clicks on the push button: the second comes while the first
    flow waits for its subscription, and the [update()] that flow
    started on the way then fails.  Every awaited promise of both flows
    is fulfilled. *)
Definition update_failure : thrown :=
  ErrorObject "TypeError" "Failed to update a ServiceWorker".

Definition double_click : list event :=
  [ClickInitPushBtn;
   Settle 0 granted; Settle 0 granted; Settle 0 granted; Settle 0 granted;
   ClickInitPushBtn;
   UpdateSettles (Some update_failure);
   Settle 0 granted; Settle 0 granted;
   Settle 1 granted; Settle 1 granted; Settle 1 granted; Settle 1 granted;
   UpdateSettles None;
   Settle 1 granted; Settle 1 granted].

End Page.

(** ** The service worker *)

Module Worker.

(** [event.data] of a push event: [null] when the message has no
    payload.  [json()] parses the payload and throws a [SyntaxError]
    when it is no JSON text. *)
Inductive PushMessageData : Type :=
| NotJson
| JsonPayload (j : json).

Record PushEvent := { data : option PushMessageData }.

Record NotificationOptions := { body : jsval }.

Inductive req : Type -> Type :=
| ShowNotification (title : jsval) (options : NotificationOptions)
    : req unit.

Inductive op : Type -> Type :=
| ClientsClaim : op unit
| SkipWaiting : op unit
| ConsoleLog (error : thrown) : op unit.

(** What the worker has done to the platform. *)
Record worker := {
  claimed : bool;          (* [clients.claim()] was called *)
  skipped_waiting : bool;  (* [self.skipWaiting()] was called *)
  console : list thrown    (* values passed to [console.log] *)
}.

Definition claim (w : worker) : worker :=
  {| claimed := true;
     skipped_waiting := skipped_waiting w;
     console := console w |}.

Definition skip_waiting (w : worker) : worker :=
  {| claimed := claimed w;
     skipped_waiting := true;
     console := console w |}.

Definition log (error : thrown) (w : worker) : worker :=
  {| claimed := claimed w;
     skipped_waiting := skipped_waiting w;
     console := console w ++ [error] |}.

Definition perform (X : Type) (o : op X) (w : worker) : X * worker :=
  match o in op X return X * worker with
  | ClientsClaim => (tt, claim w)
  | SkipWaiting => (tt, skip_waiting w)
  | ConsoleLog error => (tt, log error w)
  end.

Abbreviation task := (prog op req).

(** [event.data.json()]. *)
Definition event_data_json (event : PushEvent) : json + thrown :=
  match data event with
  | None => inr (ErrorObject "TypeError" msg_read_of_null)
  | Some NotJson => inr (ErrorObject "SyntaxError" msg_not_json)
  | Some (JsonPayload j) => inl j
  end.

Definition on_activate : task unit := do ClientsClaim.

Definition on_install : task unit := do SkipWaiting.

Definition on_push (event : PushEvent) : task unit :=
  try_catch
    (data ← lift (event_data_json event);
     body ← lift (get_property data "body");
     let options := {| body := body |} in
     title ← lift (get_property data "title");
     await (ShowNotification title options))
    (fun error => do (ConsoleLog error)).

(** The three [self.addEventListener] calls. *)
Inductive event : Type :=
| activate
| install
| push (event : PushEvent).

Definition listener (ev : event) : task unit :=
  match ev with
  | activate => on_activate
  | install => on_install
  | push event => on_push event
  end.

(** *** Vocabulary of the statements about the worker *)

(** The notifications a run asked the platform to show. *)
Definition notifications (log : list (entry op req))
  : list (jsval * NotificationOptions) :=
  omap (fun en =>
    match en with
    | Asked r =>
        match r with
        | ShowNotification title options => Some (title, options)
        end
    | Did _ => None
    end) log.

Definition fresh_worker : worker :=
  {| claimed := false; skipped_waiting := false; console := [] |}.

(** The platform shows the notification, or refuses with [e]. *)
Definition shown : turn req worker :=
  {| meanwhile := fun w => w;
     answer := fun X r =>
       match r in req X return result X with
       | ShowNotification _ _ => Fulfilled tt
       end |}.

Definition refused (e : thrown) : turn req worker :=
  {| meanwhile := fun w => w; answer := fun X r => Rejected e |}.

(** The payload is valid JSON without a [title] or without a [body]. *)
Definition lacks_expected_fields (event : PushEvent) : Prop :=
  exists j, data event = Some (JsonPayload j) /\
    (get_property j "title" = inl Undefined \/
     get_property j "body" = inl Undefined).

End Worker.

(** * Properties *)

(** ** Base64 *)

Section Base64.
Local Open Scope Z_scope.

(** Induction on byte lists by groups of three, as the encoder reads
    them. *)
Lemma list_ind3 {A} (P : list A -> Prop) :
  P [] -> (forall a, P [a]) -> (forall a b, P [a; b]) ->
  (forall a b c l, P l -> P (a :: b :: c :: l)) ->
  forall l, P l.
Proof.
  intros H0 H1 H2 H3.
  assert (H : forall l, P l /\ (forall a, P (a :: l)) /\
                        (forall a b, P (a :: b :: l))).
  { induction l as [|x l (IH0 & IH1 & IH2)]; [by auto|].
    split; [apply IH1|]. split; [intros a; apply IH2|]. intros a b. by apply H3. }
  intros l. apply H.
Qed.

Lemma sextet_in v : 0 <= v < 64 -> v ∈ sextets.
Proof. intros Hv. apply elem_of_seqZ. lia. Qed.

Lemma alphabet_index_sextet_char v :
  0 <= v < 64 -> alphabet_index (sextet_char base64_alphabet v) = Some v.
Proof.
  intros Hv.
  assert (H : Forall (fun v =>
    alphabet_index (sextet_char base64_alphabet v) = Some v) sextets).
  { repeat constructor. }
  rewrite Forall_forall in H. by apply H, sextet_in.
Qed.

Lemma replace_all_normalise s :
  replace_all "_" "/" (replace_all "-" "+" s) = str_map normalise_char s.
Proof. induction s as [|c s IH]; [done|]. simpl. by rewrite IH. Qed.

Lemma normalise_sextet_char v :
  0 <= v < 64 ->
  normalise_char (sextet_char base64url_alphabet v)
  = sextet_char base64_alphabet v.
Proof.
  intros Hv.
  assert (H : Forall (fun v =>
    normalise_char (sextet_char base64url_alphabet v)
    = sextet_char base64_alphabet v) sextets).
  { repeat constructor. }
  rewrite Forall_forall in H. by apply H, sextet_in.
Qed.


Lemma encode_group alphabet pad b0 b1 b2 rest :
  base64_encode_with alphabet pad (b0 :: b1 :: b2 :: rest)
  = String (sextet_char alphabet (b0 / 4))
      (String (sextet_char alphabet (b0 mod 4 * 16 + b1 / 16))
        (String (sextet_char alphabet (b1 mod 16 * 4 + b2 / 64))
          (String (sextet_char alphabet (b2 mod 64))
            (base64_encode_with alphabet pad rest)))).
Proof. reflexivity. Qed.

Lemma app_String c s t : String c s +:+ t = String c (s +:+ t).
Proof. reflexivity. Qed.

Lemma mod4_skip n : (S (S (S (S n))) mod 4 = n mod 4)%nat.
Proof.
  replace (S (S (S (S n)))) with (n + 1 * 4)%nat by lia.
  apply Nat.Div0.mod_add.
Qed.

(** The padding the script restores is the padding of RFC 4648. *)
Lemma encode_restore_padding alphabet pad bs :
  let s := base64_encode_with alphabet pad bs in
  s +:+ str_repeat "=" ((4 - String.length s mod 4) mod 4)
  = base64_encode_with alphabet true bs.
Proof.
  induction bs as [|a|a b|a b c l IH] using list_ind3.
  - done.
  - by destruct pad.
  - by destruct pad.
  - rewrite !encode_group. cbn zeta in *. cbn [String.length].
    rewrite mod4_skip, !app_String. by rewrite IH.
Qed.

Lemma encode_length_mod4 alphabet bs :
  (String.length (base64_encode_with alphabet true bs) mod 4 = 0)%nat.
Proof.
  induction bs as [|a|a b|a b c l IH] using list_ind3; try done.
  rewrite encode_group. cbn [String.length]. by rewrite mod4_skip.
Qed.

Lemma encode_nopad_length_mod4 alphabet bs :
  (String.length (base64_encode_with alphabet false bs) mod 4 <> 1)%nat.
Proof.
  induction bs as [|a|a b|a b c l IH] using list_ind3; try done.
  rewrite encode_group. cbn [String.length]. by rewrite mod4_skip.
Qed.

(** Translating [-] and [_] turns the base64url text into the base64
    text of the same bytes. *)
Lemma normalise_encode pad bs :
  Forall is_byte bs ->
  str_map normalise_char (base64url_encode pad bs)
  = base64_encode_with base64_alphabet pad bs.
Proof.
  unfold base64url_encode.
  induction bs as [|a|a b|a b c l IH] using list_ind3; intros Hbs.
  - done.
  - apply Forall_cons in Hbs as [Ha _]. cbn [base64_encode_with str_map].
    rewrite !normalise_sextet_char by byte_arith. by destruct pad.
  - apply Forall_cons in Hbs as [Ha Hbs].
    apply Forall_cons in Hbs as [Hb _]. cbn [base64_encode_with str_map].
    rewrite !normalise_sextet_char by byte_arith. by destruct pad.
  - apply Forall_cons in Hbs as [Ha Hbs].
    apply Forall_cons in Hbs as [Hb Hbs].
    apply Forall_cons in Hbs as [Hc Hl].
    rewrite !encode_group. cbn [str_map].
    rewrite !normalise_sextet_char by byte_arith. by rewrite IH.
Qed.

Lemma encode_pad_split alphabet bs :
  base64_encode_with alphabet true bs
  = base64_encode_with alphabet false bs +:+ pad_tail bs.
Proof.
  induction bs as [|a|a b|a b c l IH] using list_ind3; try done.
  rewrite !encode_group, !app_String. cbn [pad_tail]. by rewrite IH.
Qed.

Lemma pad_tail_cases bs :
  pad_tail bs = "" \/ pad_tail bs = "=" \/ pad_tail bs = "==".
Proof. induction bs using list_ind3; simpl; auto. Qed.

Lemma encode_nopad_alphabet bs :
  Forall is_byte bs ->
  str_forallb is_base64_char (base64_encode_with base64_alphabet false bs)
  = true.
Proof.
  assert (Hc : forall v, 0 <= v < 64 ->
    is_base64_char (sextet_char base64_alphabet v) = true).
  { intros v Hv. unfold is_base64_char.
    by rewrite alphabet_index_sextet_char. }
  induction bs as [|a|a b|a b c l IH] using list_ind3; intros Hbs.
  - done.
  - apply Forall_cons in Hbs as [Ha _]. cbn [base64_encode_with str_forallb].
    by rewrite !Hc by byte_arith.
  - apply Forall_cons in Hbs as [Ha Hbs].
    apply Forall_cons in Hbs as [Hb _]. cbn [base64_encode_with str_forallb].
    by rewrite !Hc by byte_arith.
  - apply Forall_cons in Hbs as [Ha Hbs].
    apply Forall_cons in Hbs as [Hb Hbs].
    apply Forall_cons in Hbs as [Hc' Hl].
    rewrite encode_group. cbn [str_forallb].
    rewrite !Hc by byte_arith. by rewrite IH.
Qed.


Lemma str_forallb_app p s t :
  str_forallb p (s +:+ t) = str_forallb p s && str_forallb p t.
Proof.
  induction s as [|c s IH]; [done|].
  rewrite app_String. cbn [str_forallb]. by rewrite IH, andb_assoc.
Qed.

Lemma base64_char_not_whitespace c :
  is_base64_char c = true -> is_ascii_whitespace c = false.
Proof. by destruct c as [[] [] [] [] [] [] [] []]. Qed.

Lemma base64_char_not_eq c : is_base64_char c = true -> c <> "="%char.
Proof. by destruct c as [[] [] [] [] [] [] [] []]. Qed.

Lemma remove_whitespace_id s :
  str_forallb (fun c => negb (is_ascii_whitespace c)) s = true ->
  remove_whitespace s = s.
Proof.
  induction s as [|c s IH]; [done|]. cbn [str_forallb remove_whitespace].
  intros [Hc Hs]%andb_true_iff.
  destruct (is_ascii_whitespace c); [done|]. by rewrite IH.
Qed.

Lemma str_forallb_impl (p q : ascii -> bool) s :
  (forall c, p c = true -> q c = true) ->
  str_forallb p s = true -> str_forallb q s = true.
Proof.
  intros Hpq. induction s as [|c s IH]; [done|]. cbn [str_forallb].
  intros [Hc Hs]%andb_true_iff. by rewrite (Hpq _ Hc), IH.
Qed.

Lemma strip_padding_cons c s :
  c <> "="%char -> strip_padding (String c s) = String c (strip_padding s).
Proof.
  intros Hc.
  destruct c as [[] [] [] [] [] [] [] []]; try reflexivity.
  by destruct Hc.
Qed.

Lemma strip_padding_encoded s t :
  str_forallb is_base64_char s = true ->
  t = "" \/ t = "=" \/ t = "==" ->
  strip_padding (s +:+ t) = s.
Proof.
  intros Hs Ht. induction s as [|c s IH].
  - by destruct Ht as [->|[->| ->]].
  - cbn [str_forallb] in Hs. apply andb_true_iff in Hs as [Hc Hs].
    rewrite app_String, strip_padding_cons by by apply base64_char_not_eq.
    by rewrite IH.
Qed.

(** The decoding loop inverts the encoder, three bytes at a time. *)
Lemma decode_loop_encode bs out :
  Forall is_byte bs ->
  decode_loop (base64_encode_with base64_alphabet false bs) 0 0 out
  = out ++ bs.
Proof.
  revert out.
  induction bs as [|a|a b|a b c l IH] using list_ind3; intros out Hbs.
  - simpl. by rewrite app_nil_r.
  - apply Forall_cons in Hbs as [Ha _].
    cbn [base64_encode_with decode_loop].
    rewrite !alphabet_index_sextet_char by byte_arith. cbn [from_option id].
    do 2 f_equal. byte_arith.
  - apply Forall_cons in Hbs as [Ha Hbs].
    apply Forall_cons in Hbs as [Hb _].
    cbn [base64_encode_with decode_loop].
    rewrite !alphabet_index_sextet_char by byte_arith. cbn [from_option id].
    f_equal. f_equal; [|f_equal]; byte_arith.
  - apply Forall_cons in Hbs as [Ha Hbs].
    apply Forall_cons in Hbs as [Hb Hbs].
    apply Forall_cons in Hbs as [Hc Hl].
    rewrite encode_group. cbn [decode_loop].
    rewrite !alphabet_index_sextet_char by byte_arith. cbn [from_option id].
    rewrite IH by done. rewrite <- app_assoc. f_equal.
    cbn [app]. f_equal; [|f_equal; [|f_equal]]; byte_arith.
Qed.

Lemma forgiving_base64_decode_encode bs :
  Forall is_byte bs ->
  forgiving_base64_decode (base64_encode_with base64_alphabet true bs)
  = Some bs.
Proof.
  intros Hbs. unfold forgiving_base64_decode.
  pose proof (encode_nopad_alphabet bs Hbs) as Hbody.
  rewrite remove_whitespace_id.
  2:{ rewrite encode_pad_split, str_forallb_app. apply andb_true_iff. split.
      - eapply str_forallb_impl; [|exact Hbody].
        intros c Hc. by rewrite base64_char_not_whitespace.
      - by destruct (pad_tail_cases bs) as [->|[->| ->]]. }
  rewrite encode_length_mod4. cbn [Nat.eqb].
  rewrite encode_pad_split, strip_padding_encoded
    by auto using pad_tail_cases.
  pose proof (encode_nopad_length_mod4 base64_alphabet bs) as Hlen.
  destruct (Nat.eqb_spec
    (String.length (base64_encode_with base64_alphabet false bs) mod 4) 1);
    [done|].
  rewrite Hbody. cbn [negb]. by rewrite decode_loop_encode.
Qed.

(** The copy loop reads [rawData] back into its code units. *)
Lemma charCodeAt_middle pre c post :
  charCodeAt (binary_string pre +:+ String c post) (length pre)
  = Some (Z.of_N (N_of_ascii c)).
Proof.
  unfold charCodeAt. induction pre as [|b pre IH]; [done|].
  cbn [binary_string length]. rewrite app_String. exact IH.
Qed.

Lemma code_fromCharCode b :
  is_byte b -> Z.of_N (N_of_ascii (fromCharCode b)) = b.
Proof.
  intros Hb. unfold fromCharCode, is_byte in *.
  rewrite N_ascii_embedding by lia. lia.
Qed.

Lemma binary_string_length bs : String.length (binary_string bs) = length bs.
Proof. induction bs as [|b bs IH]; [done|]. simpl. by rewrite IH. Qed.

Lemma copy_loop_spec pre post zs :
  Forall is_byte post -> length zs = length post ->
  copy_loop (length post) (length pre)
    (binary_string pre +:+ binary_string post) (pre ++ zs)
  = pre ++ post.
Proof.
  revert pre zs. induction post as [|b post IH]; intros pre zs Hpost Hlen.
  - destruct zs; [done|discriminate].
  - destruct zs as [|z zs]; [discriminate|].
    apply Forall_cons in Hpost as [Hb Hpost].
    cbn [length copy_loop binary_string].
    rewrite charCodeAt_middle, code_fromCharCode by done. cbn [from_option id].
    rewrite Z.mod_small by exact Hb.
    rewrite insert_app_r_alt, Nat.sub_diag by lia. cbn [insert list_insert].
    replace (pre ++ b :: zs) with ((pre ++ [b]) ++ zs)
      by by rewrite <- app_assoc.
    replace (binary_string pre +:+ String (fromCharCode b) (binary_string post))
      with (binary_string (pre ++ [b]) +:+ binary_string post).
    2:{ clear. induction pre as [|x pre IH]; [done|].
        cbn [app binary_string]. by rewrite !app_String, IH. }
    replace (S (length pre)) with (length (pre ++ [b]))
      by (rewrite length_app; simpl; lia).
    rewrite IH by (simpl in Hlen; auto with lia).
    by rewrite <- app_assoc.
Qed.


Lemma alphabet_index_range c : 0 <= default 0 (alphabet_index c) < 64.
Proof.
  unfold alphabet_index.
  repeat case_match; cbn [from_option id]; lia.
Qed.

(** Whatever the text, the decoding loop puts out bytes. *)
Lemma decode_loop_bytes s buf k out :
  Forall is_byte out -> (k <= 3)%nat -> 0 <= buf < 64 ^ Z.of_nat k ->
  Forall is_byte (decode_loop s buf k out).
Proof.
  revert buf k out. induction s as [|c s IH]; intros buf k out Hout Hk Hbuf.
  - cbn [decode_loop].
    destruct k as [|[|[|[|k]]]]; try done; try lia.
    + apply Forall_app. split; [done|].
      change (64 ^ Z.of_nat 2) with 4096 in Hbuf.
      repeat constructor; byte_arith.
    + apply Forall_app. split; [done|].
      change (64 ^ Z.of_nat 3) with 262144 in Hbuf.
      repeat constructor; byte_arith.
  - cbn [decode_loop]. pose proof (alphabet_index_range c) as Hc.
    destruct k as [|[|[|[|k]]]]; try lia.
    + apply IH; [done|lia|].
      change (64 ^ Z.of_nat 0) with 1 in Hbuf.
      change (64 ^ Z.of_nat 1) with 64. lia.
    + apply IH; [done|lia|].
      change (64 ^ Z.of_nat 1) with 64 in Hbuf.
      change (64 ^ Z.of_nat 2) with 4096. lia.
    + apply IH; [done|lia|].
      change (64 ^ Z.of_nat 2) with 4096 in Hbuf.
      change (64 ^ Z.of_nat 3) with 262144. lia.
    + apply IH; [|lia|done].
      apply Forall_app. split; [done|].
      change (64 ^ Z.of_nat 3) with 262144 in Hbuf.
      repeat constructor; byte_arith.
Qed.

Lemma forgiving_base64_decode_bytes data bs :
  forgiving_base64_decode data = Some bs -> Forall is_byte bs.
Proof.
  unfold forgiving_base64_decode. intros H.
  repeat case_match; try discriminate; injection H as <-;
    (apply decode_loop_bytes; [constructor|lia|simpl; lia]).
Qed.

(** The script's result is the forgiving-base64 decoding of its argument
    once the padding is restored and [-], [_] are mapped to [+], [/]:
    the copy into the [Uint8Array] changes no value. *)
Lemma urlBase64ToUint8Array_decode base64String :
  urlBase64ToUint8Array base64String
  = forgiving_base64_decode
      (replace_all "_" "/" (replace_all "-" "+"
        (base64String +:+
         str_repeat "=" ((4 - String.length base64String mod 4) mod 4)))).
Proof.
  unfold urlBase64ToUint8Array, atob.
  destruct (forgiving_base64_decode _) as [bs|] eqn:Hdec; [|done].
  cbn [fmap option_fmap option_map]. f_equal.
  apply forgiving_base64_decode_bytes in Hdec.
  rewrite binary_string_length.
  pose proof (copy_loop_spec [] bs (replicate (length bs) 0) Hdec) as H.
  rewrite length_replicate in H. by apply H.
Qed.

End Base64.

(** C2. Decoding a base64url text gives back the bytes it encodes: for
    every byte sequence, with or without the trailing [=] padding,
    [urlBase64ToUint8Array] applied to its base64url encoding returns
    exactly those bytes (so the length is the decoded byte count). *)
Theorem urlBase64ToUint8Array_roundtrip (pad : bool) (bs : list Z) :
  Forall is_byte bs ->
  urlBase64ToUint8Array (base64url_encode pad bs) = Some bs.
Proof.
  intros Hbs. rewrite urlBase64ToUint8Array_decode.
  unfold base64url_encode.
  rewrite (encode_restore_padding base64url_alphabet pad bs).
  rewrite replace_all_normalise.
  fold (base64url_encode true bs).
  rewrite (normalise_encode true bs Hbs).
  by apply forgiving_base64_decode_encode.
Qed.

Lemma urlBase64ToUint8Array_roundtrip_witness :
  Forall is_byte [72; 101; 108; 108; 111; 0; 255]%Z /\
  urlBase64ToUint8Array
    (base64url_encode false [72; 101; 108; 108; 111; 0; 255]%Z)
  = Some [72; 101; 108; 108; 111; 0; 255]%Z.
Proof.
  assert (H : Forall is_byte [72; 101; 108; 108; 111; 0; 255]%Z).
  { repeat constructor; unfold is_byte; lia. }
  split; [exact H|].
  exact (urlBase64ToUint8Array_roundtrip false _ H).
Defined.

(** ** Programs: running, catching, sequencing *)

Section ProgFacts.
Context {Op Req : Type -> Type} {St : Type}.
Context (perform : forall X, Op X -> St -> X * St).

Implicit Types st : St.

Lemma advance_not_Do {A} (p : prog Op Req A) st X (o : Op X) k :
  (advance perform p st).2 <> Do o k.
Proof.
  revert st. induction p as [a|e|Y o' k' IH|Y r k']; intros st; try done.
  cbn [advance]. destruct (perform Y o' st) as [x st1].
  specialize (IH x st1).
  by destruct (advance perform (k' x) st1) as [[st2 log] q].
Qed.

(** Sequencing: the second part starts where the first returned. *)
Lemma advance_bind {A B} (p : prog Op Req A) (f : A -> prog Op Req B) st :
  advance perform (bind p f) st =
  let '(st1, log1, p1) := advance perform p st in
  match p1 with
  | Ret a =>
      let '(st2, log2, p2) := advance perform (f a) st1 in
      (st2, log1 ++ log2, p2)
  | _ => (st1, log1, bind p1 f)
  end.
Proof.
  revert st. induction p as [a|e|Y o k IH|Y r k]; intros st.
  - cbn. by destruct (advance perform (f a) st) as [[st2 log2] p2].
  - done.
  - cbn [bind advance]. destruct (perform Y o st) as [x st1].
    rewrite IH.
    pose proof (advance_not_Do (k x) st1) as HDo.
    destruct (advance perform (k x) st1) as [[st2 log] q].
    destruct q as [a|e|Z o' k'|Z r k']; [|done| |done].
    + by destruct (advance perform (f a) st2) as [[st3 log3] p3].
    + by destruct (HDo Z o' k').
  - done.
Qed.

(** Catching: the handler starts where the body threw. *)
Lemma advance_try_catch {A} (p : prog Op Req A) h st :
  advance perform (try_catch p h) st =
  let '(st1, log1, p1) := advance perform p st in
  match p1 with
  | Throw e =>
      let '(st2, log2, p2) := advance perform (h e) st1 in
      (st2, log1 ++ log2, p2)
  | _ => (st1, log1, try_catch p1 h)
  end.
Proof.
  revert st. induction p as [a|e|Y o k IH|Y r k]; intros st.
  - done.
  - cbn. by destruct (advance perform (h e) st) as [[st2 log2] p2].
  - cbn [try_catch advance]. destruct (perform Y o st) as [x st1].
    rewrite IH.
    pose proof (advance_not_Do (k x) st1) as HDo.
    destruct (advance perform (k x) st1) as [[st2 log] q].
    destruct q as [a|e|Z o' k'|Z r k']; [done| | |done].
    + by destruct (advance perform (h e) st2) as [[st3 log3] p3].
    + by destruct (HDo Z o' k').
  - done.
Qed.

Lemma run_nil {A} (p : prog Op Req A) st :
  run perform [] p st =
  let '(st1, log1, p1) := advance perform p st in (st1, log1, p1, []).
Proof.
  cbn [run].
  by destruct (advance perform p st) as [[st1 log1] [a|e|Z o k|Z r k]].
Qed.

Lemma run_not_Do {A} ts (p : prog Op Req A) st X (o : Op X) k :
  (run perform ts p st).1.2 <> Do o k.
Proof.
  revert p st. induction ts as [|t ts IH]; intros p st.
  - cbn [run]. pose proof (advance_not_Do p st X o k) as H.
    by destruct (advance perform p st) as [[st1 log1] [a|e|Z o' k'|Z r k']].
  - cbn [run]. pose proof (advance_not_Do p st X o k) as H.
    destruct (advance perform p st) as [[st1 log1] [a|e|Z o' k'|Z r k']];
      try done.
    specialize (IH (k' (answer t Z r)) (meanwhile t st1)).
    by destruct (run perform ts _ _) as [[[st2 log2] p2] rest].
Qed.

Lemma run_bind {A B} ts (p : prog Op Req A) (f : A -> prog Op Req B) st :
  run perform ts (bind p f) st =
  let '(st1, log1, p1, rest) := run perform ts p st in
  match p1 with
  | Ret a =>
      let '(st2, log2, p2, rest2) := run perform rest (f a) st1 in
      (st2, log1 ++ log2, p2, rest2)
  | _ => (st1, log1, bind p1 f, rest)
  end.
Proof.
  revert p st. induction ts as [|t ts IH]; intros p st.
  - rewrite !run_nil, advance_bind.
    pose proof (advance_not_Do p st) as HDo.
    destruct (advance perform p st) as [[st1 log1] [a|e|Z o k|Z r k]];
      [|done|by destruct (HDo Z o k)|done].
    rewrite run_nil.
    by destruct (advance perform (f a) st1) as [[st2 log2] p2].
  - cbn [run]. rewrite advance_bind.
    pose proof (advance_not_Do p st) as HDo.
    destruct (advance perform p st) as [[st1 log1] [a|e|Z o k|Z r k]];
      [|done|by destruct (HDo Z o k)|].
    + cbn [run].
      destruct (advance perform (f a) st1) as [[st2 log2] [b|e|Z o k|Z r k]];
        try done.
      destruct (run perform ts _ _) as [[[st3 log3] p3] rest].
      by rewrite app_assoc.
    + cbn [bind]. rewrite IH.
      destruct (run perform ts (k _) _) as [[[st2 log2] p2] rest].
      destruct p2 as [a|e|Z' o k'|Z' r' k']; try done.
      destruct (run perform rest (f a) st2) as [[[st3 log3] p3] rest3].
      by rewrite app_assoc.
Qed.

Lemma run_try_catch {A} ts (p : prog Op Req A) h st :
  run perform ts (try_catch p h) st =
  let '(st1, log1, p1, rest) := run perform ts p st in
  match p1 with
  | Throw e =>
      let '(st2, log2, p2, rest2) := run perform rest (h e) st1 in
      (st2, log1 ++ log2, p2, rest2)
  | _ => (st1, log1, try_catch p1 h, rest)
  end.
Proof.
  revert p st. induction ts as [|t ts IH]; intros p st.
  - rewrite !run_nil, advance_try_catch.
    pose proof (advance_not_Do p st) as HDo.
    destruct (advance perform p st) as [[st1 log1] [a|e|Z o k|Z r k]];
      [done| |by destruct (HDo Z o k)|done].
    rewrite run_nil.
    by destruct (advance perform (h e) st1) as [[st2 log2] p2].
  - cbn [run]. rewrite advance_try_catch.
    pose proof (advance_not_Do p st) as HDo.
    destruct (advance perform p st) as [[st1 log1] [a|e|Z o k|Z r k]];
      [done| |by destruct (HDo Z o k)|].
    + cbn [run].
      destruct (advance perform (h e) st1) as [[st2 log2] [b|e'|Z o k|Z r k]];
        try done.
      destruct (run perform ts _ _) as [[[st3 log3] p3] rest].
      by rewrite app_assoc.
    + cbn [try_catch]. rewrite IH.
      destruct (run perform ts (k _) _) as [[[st2 log2] p2] rest].
      destruct p2 as [a|e|Z' o k'|Z' r' k']; try done.
      destruct (run perform rest (h e) st2) as [[[st3 log3] p3] rest3].
      by rewrite app_assoc.
Qed.


(** *** Programs that catch what they throw *)

Lemma safe_bind {A B} (p : prog Op Req A) (f : A -> prog Op Req B) :
  safe p -> (forall a, safe (f a)) -> safe (bind p f).
Proof. induction 1; cbn; auto using @safe. Qed.

Lemma safe_try_catch {A} (p : prog Op Req A) h :
  (forall e, safe (h e)) -> safe (try_catch p h).
Proof. intros Hh. induction p; cbn; auto using @safe. Qed.

Lemma safe_do {X} (o : Op X) : safe (@do Op Req X o).
Proof. repeat constructor. Qed.

Lemma safe_not_Throw {A} (p : prog Op Req A) e : safe p -> p <> Throw e.
Proof. by destruct 1. Qed.

Lemma safe_Await_inv {A X} (r : Req X) (k : result X -> prog Op Req A) :
  safe (Await r k) -> forall s, safe (k s).
Proof.
  intros H.
  change (match Await r k with
          | Await r' k' => forall s, safe (k' s)
          | _ => True
          end).
  by destruct H.
Qed.

Lemma advance_safe {A} (p : prog Op Req A) st :
  safe p -> safe (advance perform p st).2.
Proof.
  intros Hp. revert st.
  induction Hp as [a|X o k Hk IH|X r k Hk IH]; intros st.
  - constructor.
  - cbn [advance]. destruct (perform X o st) as [x st1].
    specialize (IH x st1).
    by destruct (advance perform (k x) st1) as [[st2 log] q].
  - by constructor.
Qed.

Lemma run_safe {A} ts (p : prog Op Req A) st :
  safe p -> safe (run perform ts p st).1.2.
Proof.
  revert p st. induction ts as [|t ts IH]; intros p st Hp.
  - rewrite run_nil. pose proof (advance_safe p st Hp) as H.
    by destruct (advance perform p st) as [[st1 log1] p1].
  - cbn [run]. pose proof (advance_safe p st Hp) as H.
    destruct (advance perform p st) as [[st1 log1] [a|e|Z o k|Z r k]];
      try done.
    cbn in H. pose proof (safe_Await_inv r k H) as Hk.
    specialize (IH (k (answer t Z r)) (meanwhile t st1) (Hk _)).
    by destruct (run perform ts _ _) as [[[st2 log2] p2] rest].
Qed.

(** *** Programs that make each request at most once *)

Section Ranked.
Context (rank : forall X, Req X -> nat).

Lemma ranked_weaken {A} lo lo' hi hi' (p : prog Op Req A) :
  ranked rank lo hi p -> (lo' <= lo)%nat -> (hi <= hi')%nat ->
  ranked rank lo' hi' p.
Proof.
  intros Hp. revert lo'. induction Hp; intros lo' Hlo Hhi.
  - constructor. lia.
  - constructor. lia.
  - constructor. auto.
  - constructor; [lia|]. auto.
Qed.

Lemma ranked_bind {A B} lo mid hi (p : prog Op Req A)
    (f : A -> prog Op Req B) :
  ranked rank lo mid p -> (mid <= hi)%nat ->
  (forall a, ranked rank mid hi (f a)) ->
  ranked rank lo hi (bind p f).
Proof.
  intros Hp Hhi Hf. induction Hp; cbn [bind].
  - eapply ranked_weaken; [apply Hf|done..].
  - constructor. lia.
  - constructor. auto.
  - constructor; auto.
Qed.

Lemma ranked_try_catch {A} lo mid hi (p : prog Op Req A) h :
  ranked rank lo mid p -> (mid <= hi)%nat ->
  (forall e, ranked rank mid hi (h e)) ->
  ranked rank lo hi (try_catch p h).
Proof.
  intros Hp Hhi Hh. induction Hp; cbn [try_catch].
  - constructor. lia.
  - eapply ranked_weaken; [apply Hh|done..].
  - constructor. auto.
  - constructor; auto.
Qed.

Lemma ranked_do {X} lo hi (o : Op X) :
  (lo <= hi)%nat -> ranked rank lo hi (@do Op Req X o).
Proof. intros. by repeat constructor. Qed.

Lemma ranked_await {X} lo hi (r : Req X) :
  (lo < rank X r <= hi)%nat -> ranked rank lo hi (@await Op Req X r).
Proof.
  intros [? ?]. constructor; [done|]. intros [x|e]; by constructor.
Qed.

Lemma ranked_lift {A} lo hi (x : A + thrown) :
  (lo <= hi)%nat -> ranked rank lo hi (@lift Op Req A x).
Proof. intros. destruct x; by constructor. Qed.

Lemma ranked_le {A} lo hi (p : prog Op Req A) st :
  ranked rank lo hi p -> (lo <= hi)%nat.
Proof.
  induction 1 as [| |lo hi X o k Hk IH|lo hi X r k Hlt Hk IH]; try done.
  - exact (IH (perform X o st).1).
  - specialize (IH (Rejected (NonError Undefined))). lia.
Qed.

Lemma asked_ranks_app (log1 log2 : list (entry Op Req)) :
  asked_ranks rank (log1 ++ log2)
  = asked_ranks rank log1 ++ asked_ranks rank log2.
Proof. apply omap_app. Qed.

Lemma ranked_advance {A} lo hi (p : prog Op Req A) st :
  ranked rank lo hi p ->
  let '(_, log, q) := advance perform p st in
  match q with
  | Await r k =>
      asked_ranks rank log = [rank _ r] /\ (lo < rank _ r)%nat /\
      forall s, ranked rank (rank _ r) hi (k s)
  | _ => asked_ranks rank log = []
  end.
Proof.
  intros Hp. revert st.
  induction Hp as [| |lo hi X o k Hk IH|lo hi X r k Hlt Hk IH]; intros st;
    try done.
  cbn [advance]. destruct (perform X o st) as [x st1].
  specialize (IH x st1).
  by destruct (advance perform (k x) st1) as [[st2 log] q].
Qed.

(** Along a run the ranks of the requests grow strictly and stay within
    the bounds. *)
Lemma ranked_run {A} lo hi ts (p : prog Op Req A) st :
  ranked rank lo hi p ->
  let ranks := asked_ranks rank (run perform ts p st).1.1.2 in
  StronglySorted lt (lo :: ranks) /\ Forall (fun n => (n <= hi)%nat) ranks.
Proof.
  revert lo p st. induction ts as [|t ts IH]; intros lo p st Hp.
  - rewrite run_nil. pose proof (ranked_advance lo hi p st Hp) as H.
    destruct (advance perform p st) as [[st1 log1] p1].
    destruct p1 as [a|e|Z o k|Z r k]; cbn in H; cbn [fst snd];
      try (rewrite H; split; by repeat constructor).
    destruct H as (-> & Hlt & Hk).
    pose proof (ranked_le _ _ _ st (Hk (Rejected (NonError Undefined)))).
    split; by repeat constructor.
  - cbn [run]. pose proof (ranked_advance lo hi p st Hp) as H.
    destruct (advance perform p st) as [[st1 log1] p1].
    destruct p1 as [a|e|Z o k|Z r k]; cbn in H; cbn [fst snd];
      try (rewrite H; split; by repeat constructor).
    destruct H as (Hlog & Hlt & Hk).
    pose proof (ranked_le _ _ _ st (Hk (Rejected (NonError Undefined)))).
    specialize (IH _ (k (answer t Z r)) (meanwhile t st1) (Hk _)).
    destruct (run perform ts _ _) as [[[st2 log2] p2] rest].
    cbn [fst snd] in *.
    rewrite asked_ranks_app, Hlog. cbn [app].
    destruct IH as [Hsorted Hall]. split.
    + constructor; [done|]. constructor; [done|].
      apply StronglySorted_inv in Hsorted as [_ Hgt].
      eapply Forall_impl; [exact Hgt|]. cbn. lia.
    + by constructor.
Qed.

End Ranked.

(** *** Programs that throw [Error] instances only *)

Lemma error_only_bind {A B} (p : prog Op Req A) (f : A -> prog Op Req B) :
  error_only p -> (forall a, error_only (f a)) -> error_only (bind p f).
Proof. induction 1; cbn [bind]; auto using @error_only. Qed.

Lemma error_only_await {X} (r : Req X) : error_only (@await Op Req X r).
Proof. constructor; intros; by constructor. Qed.

Lemma error_only_do {X} (o : Op X) : error_only (@do Op Req X o).
Proof. constructor. intros x. constructor. Qed.

Lemma error_only_lift {A} (x : A + thrown) :
  (forall e, x = inr e -> instanceof_Error e = true) ->
  error_only (@lift Op Req A x).
Proof. intros H. destruct x as [a|e]; constructor. by apply H. Qed.

Lemma error_only_Throw_inv {A} e :
  error_only (@Throw Op Req A e) -> instanceof_Error e = true.
Proof.
  intros H.
  change (match @Throw Op Req A e with
          | Throw e' => instanceof_Error e' = true
          | _ => True
          end).
  by destruct H.
Qed.

Lemma error_only_Await_inv {A X} (r : Req X)
    (k : result X -> prog Op Req A) :
  error_only (Await r k) ->
  forall s, (forall e, s = Rejected e -> instanceof_Error e = true) ->
            error_only (k s).
Proof.
  intros H.
  change (match Await r k with
          | Await r' k' =>
              forall s', (forall e, s' = Rejected e ->
                                    instanceof_Error e = true) ->
                         error_only (k' s')
          | _ => True
          end).
  destruct H as [| | |X' r' k' Hful Hrej]; try done.
  intros [x|e] Hs; [apply Hful|apply Hrej, Hs; reflexivity].
Qed.

Lemma error_only_advance {A} (p : prog Op Req A) st :
  error_only p -> error_only (advance perform p st).2.
Proof.
  intros Hp. revert st.
  induction Hp as [a|e He|X o k Hk IH|X r k Hful _ Hrej _]; intros st.
  - constructor.
  - by constructor.
  - cbn [advance]. destruct (perform X o st) as [x st1].
    specialize (IH x st1).
    by destruct (advance perform (k x) st1) as [[st2 log] q].
  - by constructor.
Qed.

(** What a run ends by throwing, on a platform that rejects with
    [Error] instances only, is an [Error] instance. *)
Lemma error_only_run {A} ts (p : prog Op Req A) st st' log e rest :
  error_only p -> Forall rejects_errors ts ->
  run perform ts p st = (st', log, Throw e, rest) ->
  instanceof_Error e = true.
Proof.
  revert p st st' log.
  induction ts as [|t ts IH]; intros p st st' log Hp Hts.
  - rewrite run_nil. pose proof (error_only_advance p st Hp) as H.
    destruct (advance perform p st) as [[st1 log1] p1].
    intros [= ? ? ? ?]; subst. by apply error_only_Throw_inv in H.
  - cbn [run]. pose proof (error_only_advance p st Hp) as H.
    destruct (advance perform p st) as [[st1 log1] p1]. cbn [snd] in H.
    apply Forall_cons in Hts as [Ht Hts].
    destruct p1 as [a|e'|X o k|X r k]; try (intros Heq; discriminate Heq).
    + intros [= ? ? ? ?]; subst. by apply error_only_Throw_inv in H.
    + pose proof (error_only_Await_inv r k H (answer t X r) (Ht X r)) as Hk.
      specialize (IH (k (answer t X r)) (meanwhile t st1)).
      destruct (run perform ts _ _) as [[[st2 log2] p2] rest2].
      intros [= ? ? ? ?]; subst. by eapply IH.
Qed.

End ProgFacts.

(** ** The service worker *)

(** C8. The [activate] listener calls [clients.claim()] and the
    [install] listener calls [self.skipWaiting()], each at once and
    whatever the state of the worker; neither does anything else. *)
Theorem lifecycle_listeners (w : Worker.worker) :
  advance Worker.perform (Worker.listener Worker.activate) w
  = (Worker.claim w, [Did Worker.ClientsClaim], Ret tt) /\
  advance Worker.perform (Worker.listener Worker.install) w
  = (Worker.skip_waiting w, [Did Worker.SkipWaiting], Ret tt).
Proof. split; reflexivity. Qed.

Section PushHandler.
Import Worker.

Lemma safe_on_push event : safe (on_push event).
Proof. apply safe_try_catch. intros e. repeat constructor. Qed.

(** A payload that cannot be read is caught and logged, nothing else. *)
Lemma advance_on_push_unreadable event error w :
  event_data_json event = inr error ->
  advance perform (on_push event) w
  = (log error w, [Did (ConsoleLog error)], Ret tt).
Proof. intros H. unfold on_push. by rewrite H. Qed.

(** Any other payload leads to the request, with the fields as read. *)
Lemma advance_on_push_readable event j title body w :
  event_data_json event = inl j ->
  get_property j "title" = inl title ->
  get_property j "body" = inl body ->
  exists k,
    advance perform (on_push event) w
    = (w, [Asked (ShowNotification title {| Worker.body := body |})],
       Await (ShowNotification title {| Worker.body := body |}) k) /\
    (forall x, k (Fulfilled x) = Ret x) /\
    (forall e, k (Rejected e) = Do (ConsoleLog e) Ret).
Proof.
  intros Hj Ht Hb. unfold on_push. rewrite Hj. cbn. rewrite Hb. cbn.
  rewrite Ht. cbn. eexists. split; [reflexivity|]. by split.
Qed.

Lemma get_property_cases j name :
  (j = JNull /\ get_property j name
                = inr (ErrorObject "TypeError" msg_read_of_null)) \/
  (j <> JNull /\ exists v, get_property j name = inl v).
Proof. destruct j; cbn; eauto. Qed.

Lemma run_on_push_unreadable ts event error w :
  event_data_json event = inr error ->
  run perform ts (on_push event) w
  = (log error w, [Did (ConsoleLog error)], Ret tt, ts).
Proof.
  intros H. pose proof (advance_on_push_unreadable event error w H) as Hadv.
  destruct ts; cbn [run]; by rewrite Hadv.
Qed.

Lemma run_on_push_null ts event w :
  event_data_json event = inl JNull ->
  run perform ts (on_push event) w
  = (log (ErrorObject "TypeError" msg_read_of_null) w,
     [Did (ConsoleLog (ErrorObject "TypeError" msg_read_of_null))],
     Ret tt, ts).
Proof.
  intros H.
  assert (Hadv : advance perform (on_push event) w
    = (log (ErrorObject "TypeError" msg_read_of_null) w,
       [Did (ConsoleLog (ErrorObject "TypeError" msg_read_of_null))],
       Ret tt)).
  { unfold on_push. by rewrite H. }
  destruct ts; cbn [run]; by rewrite Hadv.
Qed.

(** The runs of the handler once the payload is read: the request is
    made once; when the platform refuses it the reason is logged. *)
Lemma run_on_push_readable ts event j title body w :
  event_data_json event = inl j ->
  get_property j "title" = inl title ->
  get_property j "body" = inl body ->
  let show := ShowNotification title {| Worker.body := body |} in
  match ts with
  | [] =>
      exists k, run perform ts (on_push event) w
                = (w, [Asked show], Await show k, [])
  | t :: ts' =>
      run perform ts (on_push event) w
      = match answer t _ show with
        | Fulfilled _ => (meanwhile t w, [Asked show], Ret tt, ts')
        | Rejected e =>
            (log e (meanwhile t w), [Asked show; Did (ConsoleLog e)],
             Ret tt, ts')
        end
  end.
Proof.
  intros Hj Ht Hb show.
  destruct (advance_on_push_readable event j title body w Hj Ht Hb)
    as (k & Hadv & Hok & Hfail).
  destruct ts as [|t ts'].
  - exists k. cbn [run]. by rewrite Hadv.
  - cbn [run]. rewrite Hadv. fold show.
    destruct (answer t unit show) as [[]|e].
    + rewrite Hok. by destruct ts'.
    + rewrite Hfail. by destruct ts'.
Qed.

End PushHandler.

(** C7. When the payload of a push event parses to a JSON object with
    the fields [title] and [body], the handler asks the platform for
    exactly one notification, passing these two values as the title and
    the body, however the run goes on. *)
Theorem push_shows_notification (event : Worker.PushEvent)
    (props : gmap string json) (title body : json)
    (ts : list (turn Worker.req Worker.worker)) (w : Worker.worker) :
  Worker.data event = Some (Worker.JsonPayload (JObj props)) ->
  props !! "title" = Some title ->
  props !! "body" = Some body ->
  Worker.notifications
    (run Worker.perform ts (Worker.listener (Worker.push event)) w).1.1.2
  = [(Plain title, {| Worker.body := Plain body |})].
Proof.
  intros Hdata Htitle Hbody. cbn [Worker.listener].
  assert (Hj : Worker.event_data_json event = inl (JObj props)).
  { unfold Worker.event_data_json. by rewrite Hdata. }
  assert (Ht : get_property (JObj props) "title" = inl (Plain title)).
  { cbn. by rewrite Htitle. }
  assert (Hb : get_property (JObj props) "body" = inl (Plain body)).
  { cbn. by rewrite Hbody. }
  pose proof (run_on_push_readable ts event _ _ _ w Hj Ht Hb) as Hrun.
  cbv zeta in Hrun. destruct ts as [|t ts'].
  - destruct Hrun as [k ->]. reflexivity.
  - rewrite Hrun. by destruct (answer t _ _).
Qed.

Lemma push_shows_notification_witness :
  let event :=
    {| Worker.data := Some (Worker.JsonPayload
         (JObj {[ "title" := JStr "Hello"; "body" := JStr "World" ]})) |} in
  Worker.notifications
    (run Worker.perform [Worker.shown]
       (Worker.listener (Worker.push event)) Worker.fresh_worker).1.1.2
  = [(Plain (JStr "Hello"), {| Worker.body := Plain (JStr "World") |})].
Proof.
  exact (push_shows_notification
           {| Worker.data := Some (Worker.JsonPayload
                (JObj {[ "title" := JStr "Hello"; "body" := JStr "World" ]})) |}
           {[ "title" := JStr "Hello"; "body" := JStr "World" ]}
           (JStr "Hello") (JStr "World") [Worker.shown] Worker.fresh_worker
           eq_refl eq_refl eq_refl).
Defined.

(** C4 (as amended). The push handler never ends by throwing.  A push
    event without payload, with a payload that is not valid JSON, or
    with the payload [null] makes it throw inside its [try]: the failure
    is caught and logged, and no notification is requested.  Any other
    payload, also one without [title] or [body], raises no failure: the
    handler requests a notification with the fields as read
    ([undefined] when missing), and logs the reason when the platform
    refuses it.  At most one notification is requested: nothing is
    retried. *)
Theorem push_failures_caught (event : Worker.PushEvent) (w : Worker.worker) :
  let handler := Worker.listener (Worker.push event) in
  (forall ts e, (run Worker.perform ts handler w).1.2 <> Throw e) /\
  (forall ts, Worker.data event = Some Worker.NotJson ->
     run Worker.perform ts handler w
     = (Worker.log (ErrorObject "SyntaxError" msg_not_json) w,
        [Did (Worker.ConsoleLog (ErrorObject "SyntaxError" msg_not_json))],
        Ret tt, ts)) /\
  (forall ts,
     Worker.data event = None \/
     Worker.data event = Some (Worker.JsonPayload JNull) ->
     run Worker.perform ts handler w
     = (Worker.log (ErrorObject "TypeError" msg_read_of_null) w,
        [Did (Worker.ConsoleLog (ErrorObject "TypeError" msg_read_of_null))],
        Ret tt, ts)) /\
  (forall j t ts,
     Worker.data event = Some (Worker.JsonPayload j) -> j <> JNull ->
     exists title body,
       get_property j "title" = inl title /\
       get_property j "body" = inl body /\
       let show :=
         Worker.ShowNotification title {| Worker.body := body |} in
       run Worker.perform (t :: ts) handler w
       = match answer t _ show with
         | Fulfilled _ => (meanwhile t w, [Asked show], Ret tt, ts)
         | Rejected e =>
             (Worker.log e (meanwhile t w),
              [Asked show; Did (Worker.ConsoleLog e)], Ret tt, ts)
         end) /\
  (forall ts,
     (length (Worker.notifications (run Worker.perform ts handler w).1.1.2)
      <= 1)%nat).
Proof.
  cbv zeta. cbn [Worker.listener]. split; [|split; [|split; [|split]]].
  - intros ts e. apply safe_not_Throw, run_safe, safe_on_push.
  - intros ts Hdata. apply run_on_push_unreadable.
    unfold Worker.event_data_json. by rewrite Hdata.
  - intros ts [Hdata|Hdata].
    + apply run_on_push_unreadable.
      unfold Worker.event_data_json. by rewrite Hdata.
    + apply run_on_push_null.
      unfold Worker.event_data_json. by rewrite Hdata.
  - intros j t ts Hdata Hj.
    assert (Hjson : Worker.event_data_json event = inl j).
    { unfold Worker.event_data_json. by rewrite Hdata. }
    destruct (get_property_cases j "title") as [[? _]|[_ [title Ht]]]; [done|].
    destruct (get_property_cases j "body") as [[? _]|[_ [body Hb]]]; [done|].
    exists title, body. split; [done|]. split; [done|].
    exact (run_on_push_readable (t :: ts) event j title body w Hjson Ht Hb).
  - intros ts.
    destruct (Worker.event_data_json event) as [j|error] eqn:Hjson.
    2:{ rewrite (run_on_push_unreadable ts event error w Hjson). cbn. lia. }
    destruct (get_property_cases j "title") as [[-> _]|[_ [title Ht]]].
    { rewrite (run_on_push_null ts event w Hjson). cbn. lia. }
    destruct (get_property_cases j "body") as [[-> _]|[_ [body Hb]]].
    { rewrite (run_on_push_null ts event w Hjson). cbn. lia. }
    pose proof (run_on_push_readable ts event j title body w Hjson Ht Hb)
      as Hrun.
    cbv zeta in Hrun. destruct ts as [|t ts'].
    + destruct Hrun as [k ->]. cbn. lia.
    + rewrite Hrun. destruct (answer t _ _); cbn; lia.
Qed.

(** C4 (as stated) fails for a payload that lacks the expected fields:
    on the payload [{}] nothing is thrown and nothing is logged; the
    handler asks for a notification whose title and body are
    [undefined]. *)
Lemma push_missing_fields_not_logged :
  let event :=
    {| Worker.data := Some (Worker.JsonPayload (JObj ∅)) |} in
  let r := run Worker.perform [Worker.shown]
             (Worker.listener (Worker.push event)) Worker.fresh_worker in
  Worker.lacks_expected_fields event /\
  Worker.console r.1.1.1 = [] /\
  Worker.notifications r.1.1.2
  = [(Undefined, {| Worker.body := Undefined |})] /\
  r.1.2 = Ret tt.
Proof.
  cbv zeta. split; [|by vm_compute].
  exists (JObj ∅). split; [reflexivity|]. by left.
Qed.

(** ** The page *)

Import Page.

(** ** The stream flow *)

Lemma str_app_nil_r s : s +:+ "" = s.
Proof. induction s as [|c s IH]; [done|]. by rewrite app_String, IH. Qed.

Lemma str_app_assoc s t u : (s +:+ t) +:+ u = s +:+ t +:+ u.
Proof. induction s as [|c s IH]; [done|]. by rewrite !app_String, IH. Qed.

Lemma prefix_app s t : String.prefix s (s +:+ t) = true.
Proof.
  induction s as [|c s IH]; [by destruct t|].
  rewrite app_String. cbn [String.prefix].
  by destruct (ascii_dec c c).
Qed.

Lemma text_of_text_node s : text_of (text_node s) = s.
Proof. destruct s as [|c s]; [done|]. cbn. by rewrite str_app_nil_r. Qed.

(** One message: the handler puts a line feed and the payload after the
    text the element has. *)
Lemma step_Message convert l i data :
  is_Some (event_sources (dom l) !! i) ->
  dom (step convert l (Message i data))
  = set_state_childNodes
      (text_node
         (text_of (state_childNodes (dom l)) +:+ String LF "" +:+ data))
      (dom l).
Proof. intros [url Hurl]. cbn [step]. by rewrite Hurl. Qed.

Lemma newline_each_join msgs :
  msgs <> [] -> newline_each msgs = String LF (join_lines msgs).
Proof.
  induction msgs as [|m [|m' rest] IH]; intros Hne; [done| |].
  - cbn. by rewrite str_app_nil_r.
  - change (newline_each (m :: m' :: rest))
      with (String LF "" +:+ m +:+ newline_each (m' :: rest)).
    change (join_lines (m :: m' :: rest))
      with (m +:+ String LF (join_lines (m' :: rest))).
    by rewrite IH.
Qed.

Lemma exec_messages convert l i msgs :
  is_Some (event_sources (dom l) !! i) ->
  text_of (state_childNodes (dom (exec convert l (Message i <$> msgs))))
  = text_of (state_childNodes (dom l)) +:+ newline_each msgs.
Proof.
  revert l. induction msgs as [|m msgs IH]; intros l Hsrc.
  - cbn. by rewrite str_app_nil_r.
  - cbn [fmap list_fmap exec foldl]. fold (exec convert).
    change (foldl (step convert) ?l0 ?evs) with (exec convert l0 evs).
    rewrite IH.
    + rewrite step_Message by done. cbn [state_childNodes set_state_childNodes].
      rewrite text_of_text_node. cbn [newline_each].
      by rewrite !str_app_assoc.
    + by rewrite step_Message.
Qed.

(** C1 (as amended). After the handlers of [N] messages have run, the
    text of the display element is the text it had before, followed by
    each payload with a line feed before it, in arrival order; on an
    element that was empty this is a line feed followed by the payloads
    joined by line feeds. *)
Theorem stream_text_after_messages convert (l : loop) (i : nat)
    (msgs : list string) :
  is_Some (event_sources (dom l) !! i) ->
  let before := text_of (state_childNodes (dom l)) in
  let after :=
    text_of (state_childNodes (dom (exec convert l (Message i <$> msgs)))) in
  after = before +:+ newline_each msgs /\
  (before = "" -> msgs <> [] -> after = String LF (join_lines msgs)).
Proof.
  intros Hsrc before after. subst before after.
  rewrite exec_messages by done. split; [done|].
  intros -> Hne. by rewrite newline_each_join.
Qed.

Lemma stream_text_after_messages_witness :
  is_Some (event_sources
             (dom (exec convert_throws (load (fresh_page "alice"))
                     [ClickInitSseBtn])) !! 0%nat) /\
  text_of (state_childNodes (dom
    (exec convert_throws
       (exec convert_throws (load (fresh_page "alice")) [ClickInitSseBtn])
       (Message 0 <$> ["a"; "b"]))))
  = String LF ("a" +:+ String LF "b").
Proof.
  assert (H : is_Some (event_sources
             (dom (exec convert_throws (load (fresh_page "alice"))
                     [ClickInitSseBtn])) !! 0%nat)).
  { by eexists. }
  split; [exact H|].
  exact (proj2 (stream_text_after_messages convert_throws
                  (exec convert_throws (load (fresh_page "alice"))
                     [ClickInitSseBtn])
                  0 ["a"; "b"] H) eq_refl ltac:(discriminate)).
Defined.

(** C1 (as stated) fails: on a fresh page, after one message [hello] the
    element shows a line feed and then [hello], not [hello]. *)
Lemma stream_text_not_joined :
  let l := exec convert_throws (load (fresh_page "alice"))
             [ClickInitSseBtn; Message 0 "hello"] in
  text_of (state_childNodes (dom l)) = String LF "hello" /\
  join_lines ["hello"] = "hello" /\
  text_of (state_childNodes (dom l)) <> join_lines ["hello"].
Proof. cbv zeta. split; [reflexivity|]. split; [reflexivity|]. discriminate. Qed.

(** C10. The message handler only appends: whatever the page and the
    message, the text of the display element before the handler runs is
    a prefix of its text afterwards. *)
Theorem onmessage_only_appends convert (l : loop) (i : nat) (data : string) :
  String.prefix
    (text_of (state_childNodes (dom l)))
    (text_of (state_childNodes (dom (step convert l (Message i data)))))
  = true.
Proof.
  destruct (event_sources (dom l) !! i) as [url|] eqn:Hsrc.
  - rewrite step_Message by eauto.
    cbn [state_childNodes set_state_childNodes].
    rewrite text_of_text_node. apply prefix_app.
  - cbn [step]. rewrite Hsrc.
    rewrite <- (str_app_nil_r (text_of (state_childNodes (dom l)))) at 2.
    apply prefix_app.
Qed.

(** ** The push flow *)

Section PushFlowFacts.
Variable convert : json -> list Z + thrown.

Lemma main_blocks :
  main convert
  = bind (try_catch (subscribe_and_display convert) report)
      (fun _ => try_catch post_registration report).
Proof. reflexivity. Qed.

Lemma safe_report e : safe (report e).
Proof. destruct e; repeat constructor. Qed.

(** Everything [main] throws is caught in [main]. *)
Lemma safe_main : safe (main convert).
Proof.
  rewrite main_blocks.
  apply safe_bind; [|intros _]; apply safe_try_catch, safe_report.
Qed.

Lemma run_report ts e (pg : page) :
  run perform ts (report e) pg = (reported_state e pg, reported e, Ret tt, ts).
Proof. by destruct e, ts. Qed.

(** A [try] whose body throws ends in its [catch] clause, where the body
    stopped. *)
Lemma run_try_report ts (p : task unit) pg st log e rest :
  run perform ts p pg = (st, log, Throw e, rest) ->
  run perform ts (try_catch p report) pg
  = (reported_state e st, log ++ reported e, Ret tt, rest).
Proof. intros H. by rewrite run_try_catch, H, run_report. Qed.

(** The steps of [main] come in order, each at most once. *)
Lemma ranked_report lo hi e :
  (lo <= hi)%nat -> ranked request_rank lo hi (report e).
Proof. intros. destruct e; [by apply ranked_do|by constructor]. Qed.

Lemma ranked_subscribe_and_display :
  ranked request_rank 0 5 (subscribe_and_display convert).
Proof.
  unfold subscribe_and_display, fetchVapidKeys, subscribeUserToPush.
  unfold mbind, prog_bind, mret, prog_ret.
  apply (ranked_bind _ 0 2 5); [|lia|intros keys].
  { apply (ranked_bind _ 0 1 2); [|lia|intros resp];
      apply ranked_await; cbn; lia. }
  apply (ranked_bind _ 2 3 5); [|lia|intros _].
  { apply ranked_await; cbn; lia. }
  apply (ranked_bind _ 3 5 5); [|lia|intros subscription].
  { apply (ranked_bind _ 3 4 5); [|lia|intros registration].
    { apply ranked_await; cbn; lia. }
    apply (ranked_bind _ 4 4 5); [|lia|intros _].
    { apply ranked_do; lia. }
    apply (ranked_bind _ 4 4 5); [|lia|intros publicKey].
    { apply ranked_lift; lia. }
    apply (ranked_bind _ 4 4 5); [|lia|intros key].
    { apply ranked_lift; lia. }
    apply (ranked_bind _ 4 5 5); [|lia|intros s].
    { apply ranked_await; cbn; lia. }
    constructor; lia. }
  apply (ranked_bind _ 5 5 5); [|lia|intros _].
  { apply ranked_do; lia. }
  apply (ranked_bind _ 5 5 5); [|lia|intros s].
  { apply ranked_do; lia. }
  apply ranked_do; lia.
Qed.

Lemma ranked_post_registration :
  ranked request_rank 5 6 post_registration.
Proof.
  unfold post_registration.
  unfold mbind, prog_bind, mret, prog_ret.
  apply (ranked_bind _ 5 5 6); [|lia|intros user_id].
  { apply ranked_do; lia. }
  apply (ranked_bind _ 5 5 6); [|lia|intros s].
  { apply ranked_do; lia. }
  apply (ranked_bind _ 5 5 6); [|lia|intros parsed].
  { apply ranked_lift; lia. }
  apply (ranked_bind _ 5 6 6); [|lia|intros _].
  { apply ranked_await; cbn; lia. }
  constructor; lia.
Qed.

Lemma ranked_main : ranked request_rank 0 6 (main convert).
Proof.
  rewrite main_blocks.
  apply (ranked_bind _ 0 5 6); [|lia|intros _].
  - apply (ranked_try_catch _ 0 5 5);
      [apply ranked_subscribe_and_display|lia|].
    intros e. apply ranked_report; lia.
  - apply (ranked_try_catch _ 5 6 6);
      [apply ranked_post_registration|lia|].
    intros e. apply ranked_report; lia.
Qed.

Lemma sorted_lt_NoDup (l : list nat) : StronglySorted lt l -> NoDup l.
Proof.
  induction 1 as [|n l Hl IH Hall]; constructor; [|done].
  intros Hin. rewrite Forall_forall in Hall.
  specialize (Hall n Hin). lia.
Qed.

(** A request of rank below 6 is no request to [/register]. *)
Lemma no_post_below_6 (log : list (entry op req)) :
  Forall (fun n => (n <= 5)%nat) (asked_ranks request_rank log) ->
  Forall (fun en => is_register_post en = false) log.
Proof.
  induction log as [|en log IH]; intros H; [constructor|].
  destruct en as [X o|X r].
  - constructor; [done|]. by apply IH.
  - cbn in H. apply Forall_cons in H as [Hr H].
    constructor; [|by apply IH].
    destruct r as [url init| | | |]; try done.
    cbn in Hr |- *.
    destruct (String.eqb_spec url "/vapid.json") as [->|]; [done|lia].
Qed.

End PushFlowFacts.

(** *** What the two blocks can throw *)

Section ErrorsOnly.
Variable convert : json -> list Z + thrown.
Hypothesis convert_errors : throws_errors convert.

Lemma get_property_errors j name e :
  get_property j name = inr e -> instanceof_Error e = true.
Proof. destruct j; cbn; intros [= <-]; reflexivity. Qed.

Lemma call_urlBase64ToUint8Array_errors v e :
  call_urlBase64ToUint8Array convert v = inr e -> instanceof_Error e = true.
Proof.
  destruct v as [|j|s]; cbn [call_urlBase64ToUint8Array].
  - by intros [= <-].
  - destruct j as [|b|n|s|items|props]; try apply convert_errors.
    + by intros [= <-].
    + destruct (urlBase64ToUint8Array s); [done|by intros [= <-]].
  - apply convert_errors.
Qed.

Lemma JSON_parse_errors text e :
  JSON_parse text = inr e -> instanceof_Error e = true.
Proof. destruct text; cbn; [done|by intros [= <-]]. Qed.

Lemma error_only_subscribe_and_display :
  error_only (subscribe_and_display convert).
Proof.
  unfold subscribe_and_display, fetchVapidKeys, subscribeUserToPush.
  unfold mbind, prog_bind, mret, prog_ret.
  apply error_only_bind; [|intros keys].
  { apply error_only_bind; [|intros resp]; apply error_only_await. }
  apply error_only_bind; [apply error_only_await|intros _].
  apply error_only_bind; [|intros subscription].
  { apply error_only_bind; [apply error_only_await|intros registration].
    apply error_only_bind; [apply error_only_do|intros _].
    apply error_only_bind; [|intros publicKey].
    { apply error_only_lift, get_property_errors. }
    apply error_only_bind; [|intros key].
    { apply error_only_lift, call_urlBase64ToUint8Array_errors. }
    apply error_only_bind; [apply error_only_await|intros s]. constructor. }
  apply error_only_bind; [apply error_only_do|intros _].
  apply error_only_bind; [apply error_only_do|intros s].
  apply error_only_do.
Qed.

Lemma error_only_post_registration :
  error_only post_registration.
Proof.
  unfold post_registration.
  unfold mbind, prog_bind, mret, prog_ret.
  apply error_only_bind; [apply error_only_do|intros user_id].
  apply error_only_bind; [apply error_only_do|intros s].
  apply error_only_bind; [|intros parsed].
  { apply error_only_lift, JSON_parse_errors. }
  apply error_only_bind; [apply error_only_await|intros _]. constructor.
Qed.

(** A block that ends by throwing ends in its [catch] clause, which
    writes the message of what it caught to [#state] and changes
    nothing else. *)
Lemma run_try_report_error ts (p : task unit) pg st log e rest :
  error_only p -> Forall rejects_errors ts ->
  run perform ts p pg = (st, log, Throw e, rest) ->
  instanceof_Error e = true /\
  run perform ts (try_catch p report) pg
  = (set_state_childNodes (rendered_text_fragment (message e) "") st,
     log ++ [Did (SetStateInnerText (message e))], Ret tt, rest).
Proof.
  intros Hp Hts Hrun.
  pose proof (error_only_run perform _ _ _ _ _ _ _ Hp Hts Hrun) as He.
  split; [done|]. rewrite (run_try_report _ _ _ _ _ _ _ Hrun).
  by destruct e.
Qed.

End ErrorsOnly.



(** With no subscription the second block throws before it sends
    anything. *)
Lemma run_post_registration_undefined ts pg :
  state_subscription pg = Undefined ->
  run perform ts (try_catch post_registration report) pg
  = (set_state_childNodes
       (rendered_text_fragment msg_undefined_not_json "") pg,
     [Did GetUserIdValue; Did GetSubscription;
      Did (SetStateInnerText msg_undefined_not_json)],
     Ret tt, ts).
Proof.
  intros Hsub. unfold post_registration.
  destruct ts as [|t ts];
    cbn -[register_init rendered_text_fragment msg_undefined_not_json];
    rewrite Hsub;
    cbn -[register_init rendered_text_fragment msg_undefined_not_json];
    reflexivity.
Qed.

(** C9. When the first block fails while [state.subscription] is
    [undefined], the second block throws a [SyntaxError] as it builds
    the request body ([JSON.parse] of [undefined]); the second [catch]
    writes its message to [#state], [main] ends, and the run has made no
    request to [/register]. *)
Theorem no_registration_without_subscription convert ts pg st log e rest :
  run perform ts (subscribe_and_display convert) pg
  = (st, log, Throw e, rest) ->
  state_subscription st = Undefined ->
  let r := run perform ts (main convert) pg in
  r = (set_state_childNodes
         (rendered_text_fragment msg_undefined_not_json "") st,
       log ++ reported e ++
         [Did GetUserIdValue; Did GetSubscription;
          Did (SetStateInnerText msg_undefined_not_json)],
       Ret tt, rest) /\
  Forall (fun en => is_register_post en = false) r.1.1.2.
Proof.
  intros Hrun Hsub r.
  assert (Hr : r = (set_state_childNodes
         (rendered_text_fragment msg_undefined_not_json "") st,
       log ++ reported e ++
         [Did GetUserIdValue; Did GetSubscription;
          Did (SetStateInnerText msg_undefined_not_json)],
       Ret tt, rest)).
  { subst r. rewrite main_blocks, run_bind.
    rewrite (run_try_report _ _ _ _ _ _ _ Hrun).
    assert (Hsub' : state_subscription (reported_state e st) = Undefined).
    { by destruct e. }
    rewrite (run_post_registration_undefined _ _ Hsub').
    rewrite <- app_assoc. by destruct e. }
  split; [exact Hr|]. rewrite Hr. cbn [fst snd].
  pose proof (ranked_run perform request_rank 0 5 ts
                (subscribe_and_display convert) pg
                (ranked_subscribe_and_display convert)) as [_ Hle].
  rewrite Hrun in Hle. cbn [fst snd] in Hle.
  apply Forall_app. split; [by apply no_post_below_6|].
  apply Forall_app. split; [by destruct e; repeat constructor|].
  by repeat constructor.
Qed.

Lemma no_registration_without_subscription_witness :
  let ts := [quietly (rejecting (ErrorObject "TypeError" "Failed to fetch"))] in
  let pg := fresh_page "alice" in
  run perform ts (main convert_throws) pg
  = (set_state_childNodes
       (rendered_text_fragment msg_undefined_not_json "") pg,
     [Asked (Fetch "/vapid.json" None)] ++
       reported (ErrorObject "TypeError" "Failed to fetch") ++
       [Did GetUserIdValue; Did GetSubscription;
        Did (SetStateInnerText msg_undefined_not_json)],
     Ret tt, []) /\
  Forall (fun en => is_register_post en = false)
    (run perform ts (main convert_throws) pg).1.1.2.
Proof.
  exact (no_registration_without_subscription convert_throws
           [quietly (rejecting (ErrorObject "TypeError" "Failed to fetch"))]
           (fresh_page "alice") (fresh_page "alice")
           [Asked (Fetch "/vapid.json" None)]
           (ErrorObject "TypeError" "Failed to fetch") []
           eq_refl eq_refl).
Defined.

(** The fields of the request body: those of the subscription, and
    [user_id] unless the subscription has a field of that name. *)
Lemma register_body_lookup user_id fields name :
  register_body user_id (JObj fields) !! name
  = match fields !! name with
    | Some v => Some v
    | None => if decide (name = "user_id") then Some (JStr user_id) else None
    end.
Proof.
  unfold register_body, spread. cbn [own_properties].
  rewrite lookup_union.
  destruct (fields !! name) as [v|] eqn:Hf.
  - by destruct ({[ "user_id" := JStr user_id ]} !! name).
  - rewrite left_id by apply _.
    case_decide as Hname; [subst; apply lookup_singleton_eq|].
    by apply lookup_singleton_ne.
Qed.

(** C3 (as amended). In a run of [main] in which every step up to the
    subscription succeeds and the platform yields the subscription [S],
    the flow makes exactly one request to [/register]: a POST whose
    body is the JSON text of an object with the fields of the JSON form
    of [S] and the field [user_id], none more and none missing.
    [user_id] holds the value the input has when the subscription
    arrives, which is when the body is built, provided [S] has no
    [user_id] field of its own. *)
Theorem registration_body convert pg t1 t2 t3 t4 t5
    resp keys perm reg publicKey key S :
  answer t1 _ (Fetch "/vapid.json" None) = Fulfilled resp ->
  answer t2 _ (ResponseJson resp) = Fulfilled keys ->
  answer t3 _ RequestPermission = Fulfilled perm ->
  answer t4 _ (Register "service_worker.js") = Fulfilled reg ->
  get_property keys "publicKey" = inl publicKey ->
  call_urlBase64ToUint8Array convert publicKey = inl key ->
  answer t5 _ (Subscribe reg true key) = Fulfilled S ->
  toJSON S !! "user_id" = None ->
  let arrived :=
    meanwhile t5 (run perform [t1; t2; t3; t4] (main convert) pg).1.1.1 in
  let fields := register_body (userId_value arrived) (JObj (toJSON S)) in
  let post :=
    Fetch "/register" (Some {|
      method := "POST";
      headers := [("Content-Type", "application/json")];
      body := Some {| indent := 0; denotes := JObj fields |} |}) in
  (exists k,
     run perform [t1; t2; t3; t4; t5] (main convert) pg
     = (set_details_textContent
          (Json {| indent := 4; denotes := JObj (toJSON S) |})
          (set_state_subscription (Subscription S) arrived),
        [Asked (Fetch "/vapid.json" None); Asked (ResponseJson resp);
         Asked RequestPermission; Asked (Register "service_worker.js");
         Did (Update reg); Asked (Subscribe reg true key);
         Did (SetSubscription (Subscription S)); Did GetSubscription;
         Did (SetDetailsTextContent
                (Some {| indent := 4; denotes := JObj (toJSON S) |}));
         Did GetUserIdValue; Did GetSubscription; Asked post],
        Await post k, [])) /\
  fields !! "user_id" = Some (JStr (userId_value arrived)) /\
  (forall name, name <> "user_id" -> fields !! name = toJSON S !! name).
Proof.
  intros H1 H2 H3 H4 Hpk Hkey H5 Hfresh arrived fields post.
  split; [|split].
  - assert (Harrived : arrived =
      meanwhile t5
        (set_floating_updates
           (Datatypes.S (floating_updates
              (meanwhile t4 (meanwhile t3 (meanwhile t2 (meanwhile t1 pg))))))
           (meanwhile t4 (meanwhile t3 (meanwhile t2 (meanwhile t1 pg)))))).
    { subst arrived. unfold main, subscribe_and_display, fetchVapidKeys,
        subscribeUserToPush.
      cbn -[post_registration]. rewrite H1. cbn -[post_registration].
      rewrite H2. cbn -[post_registration]. rewrite H3.
      cbn -[post_registration]. rewrite H4. cbn -[post_registration].
      rewrite Hpk. cbn -[post_registration]. rewrite Hkey.
      by cbn -[post_registration]. }
    clearbody arrived. subst arrived fields post.
    unfold main, subscribe_and_display, fetchVapidKeys,
      subscribeUserToPush, post_registration.
    cbn -[register_body]. rewrite H1. cbn -[register_body].
    rewrite H2. cbn -[register_body]. rewrite H3. cbn -[register_body].
    rewrite H4. cbn -[register_body]. rewrite Hpk. cbn -[register_body].
    rewrite Hkey. cbn -[register_body]. rewrite H5. cbn -[register_body].
    by eexists.
  - subst fields. rewrite register_body_lookup, Hfresh. by case_decide.
  - intros name Hname. subst fields.
    rewrite register_body_lookup. destruct (toJSON S !! name); [done|].
    by case_decide.
Qed.

Lemma registration_body_witness :
  let ts := [quietly granted; quietly granted; typing "bob" granted;
             quietly granted; quietly granted] in
  toJSON example_subscription !! "user_id" = None /\
  posted_user_ids (run perform ts (main convert_throws) (fresh_page "alice")).1.1.2
  = [inl (Plain (JStr "bob"))] /\
  register_body "bob" (JObj (toJSON example_subscription)) !! "user_id"
  = Some (JStr "bob") /\
  (forall name, name <> "user_id" ->
     register_body "bob" (JObj (toJSON example_subscription)) !! name
     = toJSON example_subscription !! name).
Proof.
  pose proof (registration_body convert_throws (fresh_page "alice")
    (quietly granted) (quietly granted) (typing "bob" granted)
    (quietly granted) (quietly granted)
    a_response example_keys "granted" a_registration
    (Plain (JStr "SGVsbG8")) [72; 101; 108; 108; 111]%Z example_subscription
    eq_refl eq_refl eq_refl eq_refl eq_refl eq_refl eq_refl eq_refl)
    as (_ & Huser & Hothers).
  split; [reflexivity|]. split; [by vm_compute|]. split; [exact Huser|].
  exact Hothers.
Defined.

(** C3 (as stated) fails twice over.  The user id is read when the body
    is built: typed over while the permission prompt was open, the new
    value is sent, not the one at the click.  And a [user_id] field of
    the subscription itself would be sent in place of the input's
    value. *)
Lemma registration_user_id_counterexample :
  let typed_over :=
    run perform
      [quietly granted; quietly granted; typing "bob" granted;
       quietly granted; quietly granted]
      (main convert_throws) (fresh_page "alice") in
  let own_field :=
    run perform
      (replicate 5
         (quietly (fulfilling example_keys subscription_with_user_id)))
      (main convert_throws) (fresh_page "alice") in
  userId_value (fresh_page "alice") = "alice" /\
  posted_user_ids typed_over.1.1.2 = [inl (Plain (JStr "bob"))] /\
  posted_user_ids own_field.1.1.2 = [inl (Plain (JStr "mallory"))] /\
  userId_value own_field.1.1.1 = "alice".
Proof. cbv zeta. by vm_compute. Qed.

(** ** Two flows at once *)

Section LoopFacts.
Variable convert : json -> list Z + thrown.

Lemma safe_uncaught (p : task unit) : safe p -> uncaught p = [].
Proof. by destruct 1. Qed.

Lemma safe_onmessage data : safe (onmessage data).
Proof. repeat constructor. Qed.

Lemma safe_serverSentEvent : safe serverSentEvent.
Proof. repeat constructor. Qed.

Lemma invoke_safe (p : task unit) l :
  safe p -> Forall safe (tasks l) ->
  Forall safe (tasks (invoke p l)) /\ unhandled (invoke p l) = unhandled l.
Proof.
  intros Hp Hl. unfold invoke.
  pose proof (advance_safe perform p (dom l) Hp) as Hq.
  destruct (advance perform p (dom l)) as [[pg log] q]. cbn in *.
  rewrite safe_uncaught, app_nil_r by done. split; [|done].
  apply Forall_app. by split; [|constructor].
Qed.

(** The handlers of the page catch what they throw: an unhandled
    rejection can only be that of a dropped [update()] promise. *)
Lemma step_unhandled l ev :
  Forall safe (tasks l) ->
  Forall safe (tasks (step convert l ev)) /\
  (unhandled (step convert l ev) = unhandled l \/
   exists e, ev = UpdateSettles (Some e) /\
             unhandled (step convert l ev) = unhandled l ++ [e]).
Proof.
  intros Hl. destruct ev as [| |i data|i answer|failure|s]; cbn [step].
  - destruct (invoke_safe (main convert) l (safe_main convert) Hl); auto.
  - destruct (invoke_safe serverSentEvent l safe_serverSentEvent Hl); auto.
  - destruct (event_sources (dom l) !! i); [|auto].
    destruct (invoke_safe (onmessage data) l (safe_onmessage data) Hl); auto.
  - destruct (tasks l !! i) as [[a|e|X o k|X r k]|] eqn:Hi; auto.
    assert (Hk : forall s, safe (k s)).
    { apply safe_Await_inv with (r := r).
      rewrite Forall_forall in Hl. apply Hl.
      apply list_elem_of_lookup. eauto. }
    pose proof (advance_safe perform (k (answer X r)) (dom l) (Hk _)) as Hq.
    destruct (advance perform (k (answer X r)) (dom l)) as [[pg log] q].
    cbn in *. rewrite safe_uncaught, app_nil_r by done.
    split; [|auto]. by apply Forall_insert.
  - destruct (floating_updates (dom l)); [auto|]. cbn.
    destruct failure as [e|]; [eauto|]. rewrite app_nil_r. auto.
  - auto.
Qed.

Lemma exec_unhandled evs l e :
  Forall safe (tasks l) ->
  e ∈ unhandled (exec convert l evs) ->
  e ∈ unhandled l \/ UpdateSettles (Some e) ∈ evs.
Proof.
  revert l. induction evs as [|ev evs IH]; intros l Hl He; [auto|].
  cbn [exec foldl] in He.
  destruct (step_unhandled l ev Hl) as [Hsafe Hun].
  destruct (IH _ Hsafe He) as [Hin|Hin]; [|right; by constructor].
  destruct Hun as [Hun|(e' & -> & Hun)]; rewrite Hun in Hin; [auto|].
  apply elem_of_app in Hin as [Hin|Hin]; [auto|].
  apply list_elem_of_singleton in Hin as ->. right. constructor.
Qed.

End LoopFacts.

(** C6, at the input on which the code fails it.  The push button is
    clicked twice in a row; while the first flow waits for its
    subscription, the [update()] it called without awaiting rejects.
    Nothing handles that promise: the run ends with one unhandled
    rejection, though every invocation of [main] has ended normally. *)
Theorem double_click_unhandled_rejection :
  let l := exec convert_throws (load (fresh_page "alice")) double_click in
  unhandled l = [update_failure] /\
  tasks l = [Ret tt; Ret tt] /\
  length (register_posts (history l)) = 2%nat.
Proof. cbv zeta. by vm_compute. Qed.

(** ** More on [urlBase64ToUint8Array] *)

Section Base64Edges.
Local Open Scope Z_scope.

Lemma str_length_app s t :
  String.length (s +:+ t) = (String.length s + String.length t)%nat.
Proof. induction s as [|c s IH]; [done|]. rewrite app_String. cbn. by rewrite IH. Qed.

Lemma str_repeat_eq_S n :
  str_repeat "=" (S n) = String "=" (str_repeat "=" n).
Proof. reflexivity. Qed.

Lemma str_repeat_eq_length n : String.length (str_repeat "=" n) = n.
Proof.
  induction n as [|n IH]; [done|]. rewrite str_repeat_eq_S. cbn.
  by rewrite IH.
Qed.

Lemma str_map_app f s t : str_map f (s +:+ t) = str_map f s +:+ str_map f t.
Proof.
  induction s as [|c s IH]; [done|]. rewrite app_String. cbn [str_map].
  by rewrite IH.
Qed.

Lemma str_map_repeat_eq n :
  str_map normalise_char (str_repeat "=" n) = str_repeat "=" n.
Proof.
  induction n as [|n IH]; [done|]. rewrite str_repeat_eq_S. cbn [str_map].
  by rewrite IH.
Qed.

Lemma str_map_length f s : String.length (str_map f s) = String.length s.
Proof. induction s as [|c s IH]; [done|]. cbn. by rewrite IH. Qed.

(** The text [atob] is given. *)
Lemma urlBase64ToUint8Array_data s :
  urlBase64ToUint8Array s
  = forgiving_base64_decode (str_map normalise_char s +:+ key_padding s).
Proof.
  rewrite urlBase64ToUint8Array_decode, replace_all_normalise, str_map_app.
  unfold key_padding. by rewrite str_map_repeat_eq.
Qed.

Lemma key_padding_cases s :
  match (String.length s mod 4)%nat with
  | 0%nat => key_padding s = ""
  | 1%nat => key_padding s = "==="
  | 2%nat => key_padding s = "=="
  | _ => key_padding s = "="
  end.
Proof.
  unfold key_padding.
  pose proof (Nat.mod_upper_bound (String.length s) 4 ltac:(lia)) as H.
  destruct (String.length s mod 4)%nat as [|[|[|[|n]]]]; try done. lia.
Qed.


Lemma remove_whitespace_app s t :
  remove_whitespace (s +:+ t) = remove_whitespace s +:+ remove_whitespace t.
Proof.
  induction s as [|c s IH]; [done|]. rewrite app_String.
  cbn [remove_whitespace]. destruct (is_ascii_whitespace c); [done|].
  by rewrite app_String, IH.
Qed.

Lemma str_forallb_map p f s :
  str_forallb p (str_map f s) = str_forallb (fun c => p (f c)) s.
Proof. induction s as [|c s IH]; [done|]. cbn. by rewrite IH. Qed.

(** [strip_padding] leaves the front of a text of three characters or
    more alone. *)
Lemma strip_padding_long c s :
  (2 <= String.length s)%nat ->
  strip_padding (String c s) = String c (strip_padding s).
Proof.
  destruct s as [|c1 [|c2 s]]; cbn [String.length]; try lia. intros _.
  destruct (ascii_dec c "=") as [->|Hc]; [|by apply strip_padding_cons].
  destruct c1 as [[] [] [] [] [] [] [] []]; reflexivity.
Qed.

Lemma strip_padding_cases c s :
  strip_padding (String c s) = String c (strip_padding s) \/
  String c s = "=" \/ String c s = "==".
Proof.
  destruct (ascii_dec c "=") as [->|Hc]; [|left; by apply strip_padding_cons].
  destruct s as [|c1 [|c2 s]]; [auto| |left; apply strip_padding_long; cbn; lia].
  destruct (ascii_dec c1 "=") as [->|Hc1]; [auto|]. left.
  destruct c1 as [[] [] [] [] [] [] [] []]; try reflexivity. by destruct Hc1.
Qed.

Lemma strip_padding_three s : strip_padding (s +:+ "===") = s +:+ "=".
Proof.
  induction s as [|c s IH]; [done|].
  rewrite !app_String, strip_padding_long, IH; [done|].
  rewrite str_length_app. cbn. lia.
Qed.

Lemma str_forallb_eq_false s t :
  str_forallb is_base64_char (s +:+ String "=" t) = false.
Proof.
  rewrite str_forallb_app. cbn [str_forallb].
  change (is_base64_char "=") with false. cbn. apply andb_false_r.
Qed.

(** With three [=] of padding, [atob] always fails. *)
Lemma forgiving_base64_decode_three s :
  forgiving_base64_decode (s +:+ "===") = None.
Proof.
  unfold forgiving_base64_decode. rewrite remove_whitespace_app.
  change (remove_whitespace "===") with "===".
  set (v := remove_whitespace s).
  destruct (String.length (v +:+ "===") mod 4 =? 0)%nat.
  - rewrite strip_padding_three.
    destruct (String.length (v +:+ "=") mod 4 =? 1)%nat; [done|].
    by rewrite str_forallb_eq_false.
  - destruct (String.length (v +:+ "===") mod 4 =? 1)%nat; [done|].
    by rewrite str_forallb_eq_false.
Qed.

(** *** Membership *)

Lemma str_In_app_l c s t : str_In c s -> str_In c (s +:+ t).
Proof.
  induction s as [|x s IH]; [done|]. rewrite app_String.
  intros [->|H]; [by left|right; auto].
Qed.

Lemma str_In_map f c s : str_In c s -> str_In (f c) (str_map f s).
Proof.
  induction s as [|x s IH]; [done|].
  intros [->|H]; [by left|right; auto].
Qed.

Lemma str_In_remove_whitespace c s :
  is_ascii_whitespace c = false -> str_In c s ->
  str_In c (remove_whitespace s).
Proof.
  intros Hc. induction s as [|x s IH]; [done|]. cbn [remove_whitespace].
  intros [->|H].
  - rewrite Hc. by left.
  - destruct (is_ascii_whitespace x); [auto|right; auto].
Qed.

Lemma str_In_strip_padding c s :
  c <> "="%char -> str_In c s -> str_In c (strip_padding s).
Proof.
  intros Hc. induction s as [|x s IH]; [done|]. intros Hin.
  destruct (strip_padding_cases x s) as [->|[Heq|Heq]].
  - destruct Hin as [->|Hin]; [by left|right; auto].
  - injection Heq as -> ->. destruct Hin as [Hin|[]]. by destruct Hc.
  - injection Heq as -> ->. destruct Hin as [Hin|[Hin|[]]]; by destruct Hc.
Qed.

Lemma str_forallb_In_false p c s :
  str_In c s -> p c = false -> str_forallb p s = false.
Proof.
  induction s as [|x s IH]; [done|]. cbn [str_forallb].
  intros [->|H] Hp; [by rewrite Hp|].
  rewrite IH by done. apply andb_false_r.
Qed.

Lemma normalise_char_id c :
  is_base64_char (normalise_char c) = false -> normalise_char c = c.
Proof. by destruct c as [[] [] [] [] [] [] [] []]. Qed.

(** *** The length of what the decoding loop puts out *)

Lemma decode_loop_length s buf k out :
  (k <= 3)%nat ->
  length (decode_loop s buf k out)
  = (length out + 3 * (k + String.length s) / 4)%nat.
Proof.
  revert buf k out. induction s as [|c s IH]; intros buf k out Hk.
  - cbn [decode_loop String.length].
    destruct k as [|[|[|[|k]]]]; try lia; rewrite ?length_app; cbn; lia.
  - cbn [decode_loop String.length].
    destruct k as [|[|[|[|k]]]]; try lia.
    + by rewrite IH by lia.
    + by rewrite IH by lia.
    + by rewrite IH by lia.
    + rewrite IH by lia. rewrite length_app. cbn [length].
      replace (3 * (3 + S (String.length s)))%nat
        with (3 * 4 + 3 * (0 + String.length s))%nat by lia.
      rewrite Nat.div_add_l by lia. lia.
Qed.

Lemma key_char_not_whitespace c :
  is_key_char c = true -> is_ascii_whitespace (normalise_char c) = false.
Proof. intros H. by apply base64_char_not_whitespace. Qed.

(** *** Whitespace in a key *)

Lemma normalise_char_whitespace w :
  is_ascii_whitespace w = true -> normalise_char w = w.
Proof. by destruct w as [[] [] [] [] [] [] [] []]. Qed.

Lemma remove_whitespace_skip s1 w s2 :
  is_ascii_whitespace w = true ->
  remove_whitespace (s1 +:+ String w s2) = remove_whitespace (s1 +:+ s2).
Proof.
  intros Hw. rewrite !remove_whitespace_app. cbn [remove_whitespace].
  by rewrite Hw.
Qed.

Lemma forgiving_base64_decode_whitespace s t :
  remove_whitespace s = remove_whitespace t ->
  forgiving_base64_decode s = forgiving_base64_decode t.
Proof. intros H. unfold forgiving_base64_decode. by rewrite H. Qed.

Lemma remove_whitespace_key s p :
  str_forallb is_base64_char s = true ->
  remove_whitespace (s +:+ str_repeat "=" p) = s +:+ str_repeat "=" p.
Proof.
  intros Hs. apply remove_whitespace_id. rewrite str_forallb_app.
  apply andb_true_iff. split.
  - eapply str_forallb_impl; [|exact Hs].
    intros c Hc. by rewrite base64_char_not_whitespace.
  - induction p as [|p IH]; [done|]. by rewrite str_repeat_eq_S.
Qed.

(** What [atob] makes of a text over the alphabet followed by [p]
    padding characters. *)
Lemma forgiving_base64_decode_key s p :
  str_forallb is_base64_char s = true ->
  forgiving_base64_decode (s +:+ str_repeat "=" p)
  = if ((p =? 0) ||
        ((p <=? 2) && ((String.length s + p) mod 4 =? 0)))%nat
    then if (String.length s mod 4 =? 1)%nat then None
         else Some (decode_loop s 0 0 [])
    else None.
Proof.
  intros Hs. unfold forgiving_base64_decode.
  rewrite remove_whitespace_key by done.
  rewrite str_length_app, str_repeat_eq_length.
  destruct p as [|[|[|p]]].
  - cbn [str_repeat Nat.eqb orb]. rewrite str_app_nil_r, Nat.add_0_r.
    destruct (String.length s mod 4 =? 0)%nat eqn:H0.
    + assert (Hstrip : strip_padding s = s).
      { rewrite <- (str_app_nil_r s) at 1.
        apply strip_padding_encoded; auto. }
      by rewrite Hstrip, Hs.
    + by rewrite Hs.
  - cbn [Nat.eqb Nat.leb orb andb].
    destruct ((String.length s + 1) mod 4 =? 0)%nat eqn:H0.
    + change (str_repeat "=" 1) with "=".
      rewrite strip_padding_encoded by auto. by rewrite Hs.
    + change (str_repeat "=" 1) with "=".
      rewrite str_length_app. cbn [String.length].
      rewrite str_forallb_eq_false. cbn [negb].
      by destruct ((String.length s + 1) mod 4 =? 1)%nat.
  - cbn [Nat.eqb Nat.leb orb andb].
    destruct ((String.length s + 2) mod 4 =? 0)%nat eqn:H0.
    + change (str_repeat "=" 2) with "==".
      rewrite strip_padding_encoded by auto. by rewrite Hs.
    + change (str_repeat "=" 2) with "==".
      rewrite str_length_app. cbn [String.length].
      rewrite str_forallb_eq_false. cbn [negb].
      by destruct ((String.length s + 2) mod 4 =? 1)%nat.
  - cbn [Nat.eqb Nat.leb orb andb].
    rewrite !str_repeat_eq_S.
    assert (Hbad : forall t, str_forallb is_base64_char t = true ->
              str_forallb is_base64_char
                (strip_padding
                   (t +:+ String "=" (String "=" (String "="
                      (str_repeat "=" p))))) = false).
    { intros t Ht. induction t as [|c t IH].
      - change (str_forallb is_base64_char
                  (strip_padding
                     (String "=" (String "=" (String "="
                        (str_repeat "=" p))))) = false).
        rewrite strip_padding_long by (cbn [String.length]; lia).
        reflexivity.
      - cbn [str_forallb] in Ht. apply andb_true_iff in Ht as [Hc Ht].
        rewrite app_String, strip_padding_cons
          by by apply base64_char_not_eq.
        cbn [str_forallb]. rewrite IH by done. apply andb_false_r. }
    destruct (_ mod 4 =? 0)%nat.
    + rewrite Hbad by done. cbn [negb]. by destruct (_ =? 1)%nat.
    + rewrite str_forallb_eq_false. cbn [negb]. by destruct (_ =? 1)%nat.
Qed.

End Base64Edges.

(** X1. The script returns exactly what the forgiving-base64 decode
    makes of the key with [-] and [_] replaced and the padding appended,
    and throws exactly when that decode fails: the way through the
    binary string of [atob] and the copy into the [Uint8Array] changes
    no byte and drops none. *)
Theorem urlBase64ToUint8Array_exact (base64String : string) :
  urlBase64ToUint8Array base64String
  = forgiving_base64_decode
      (str_map normalise_char base64String +:+ key_padding base64String).
Proof.
  unfold urlBase64ToUint8Array, atob. fold (key_padding base64String).
  rewrite replace_all_normalise, str_map_app.
  unfold key_padding at 1 2. rewrite str_map_repeat_eq.
  fold (key_padding base64String).
  destruct (forgiving_base64_decode _) as [bs|] eqn:Hdec; [|done].
  cbn [fmap option_fmap option_map]. f_equal.
  apply forgiving_base64_decode_bytes in Hdec.
  rewrite binary_string_length.
  pose proof (copy_loop_spec [] bs (replicate (length bs) 0%Z) Hdec) as H.
  rewrite length_replicate in H. by apply H.
Qed.

(** X6. Restoring the padding by hand changes nothing: a key followed by
    the padding the script would append decodes as the key itself. *)
Theorem urlBase64ToUint8Array_padded (base64String : string) :
  urlBase64ToUint8Array (base64String +:+ key_padding base64String)
  = urlBase64ToUint8Array base64String.
Proof.
  rewrite !urlBase64ToUint8Array_data, str_map_app.
  assert (Hnone : key_padding (base64String +:+ key_padding base64String) = "").
  { pose proof (key_padding_cases base64String) as Hpad.
    pose proof (key_padding_cases
                  (base64String +:+ key_padding base64String)) as Hpad'.
    rewrite str_length_app in Hpad'.
    pose proof (Nat.div_mod_eq (String.length base64String) 4) as Hn.
    destruct (String.length base64String mod 4)%nat as [|[|[|[|n]]]] eqn:Hmod.
    - rewrite Hpad in Hpad' |- *. cbn [String.length] in Hpad'.
      rewrite Nat.add_0_r, Hmod in Hpad'. exact Hpad'.
    - rewrite Hpad in Hpad' |- *. cbn [String.length] in Hpad'.
      replace (String.length base64String + 3)%nat
        with (0 + (String.length base64String / 4 + 1) * 4)%nat in Hpad'
        by lia.
      by rewrite Nat.Div0.mod_add in Hpad'.
    - rewrite Hpad in Hpad' |- *. cbn [String.length] in Hpad'.
      replace (String.length base64String + 2)%nat
        with (0 + (String.length base64String / 4 + 1) * 4)%nat in Hpad'
        by lia.
      by rewrite Nat.Div0.mod_add in Hpad'.
    - rewrite Hpad in Hpad' |- *. cbn [String.length] in Hpad'.
      replace (String.length base64String + 1)%nat
        with (0 + (String.length base64String / 4 + 1) * 4)%nat in Hpad'
        by lia.
      by rewrite Nat.Div0.mod_add in Hpad'.
    - pose proof (Nat.mod_upper_bound (String.length base64String) 4). lia. }
  rewrite Hnone, str_app_nil_r.
  unfold key_padding at 1. by rewrite str_map_repeat_eq.
Qed.

(** X3. A key whose length leaves the remainder 1 when divided by 4 is
    always refused ([atob] throws), whatever its characters. *)
Theorem urlBase64ToUint8Array_length_1_mod_4 (base64String : string) :
  (String.length base64String mod 4 = 1)%nat ->
  urlBase64ToUint8Array base64String = None.
Proof.
  intros Hlen. rewrite urlBase64ToUint8Array_data.
  pose proof (key_padding_cases base64String) as Hpad.
  rewrite Hlen in Hpad. rewrite Hpad.
  apply forgiving_base64_decode_three.
Qed.

Lemma urlBase64ToUint8Array_length_1_mod_4_witness :
  (String.length "SGVsb" mod 4 = 1)%nat /\
  urlBase64ToUint8Array "SGVsb" = None.
Proof.
  split; [reflexivity|].
  exact (urlBase64ToUint8Array_length_1_mod_4 "SGVsb" eq_refl).
Defined.

(** X4. A key with a character that is neither of the base64url or
    base64 alphabet, nor ASCII whitespace, nor [=] is refused. *)
Theorem urlBase64ToUint8Array_bad_character (base64String : string)
    (c : ascii) :
  str_In c base64String ->
  is_key_char c = false ->
  is_ascii_whitespace c = false ->
  c <> "="%char ->
  urlBase64ToUint8Array base64String = None.
Proof.
  intros Hin Hkey Hws Heq. rewrite urlBase64ToUint8Array_data.
  unfold is_key_char in Hkey.
  pose proof (normalise_char_id c Hkey) as Hid. rewrite Hid in Hkey.
  set (data := str_map normalise_char base64String +:+ _).
  assert (Hdata : str_In c data).
  { apply str_In_app_l. rewrite <- Hid. by apply str_In_map. }
  unfold forgiving_base64_decode.
  pose proof (str_In_remove_whitespace c data Hws Hdata) as Hrw.
  destruct (String.length (remove_whitespace data) mod 4 =? 0)%nat.
  - pose proof (str_In_strip_padding c _ Heq Hrw) as Hstrip.
    destruct (_ =? 1)%nat; [done|].
    by rewrite (str_forallb_In_false _ c _ Hstrip Hkey).
  - destruct (_ =? 1)%nat; [done|].
    by rewrite (str_forallb_In_false _ c _ Hrw Hkey).
Qed.

Lemma urlBase64ToUint8Array_bad_character_witness :
  str_In "!" "SGV!bG8" /\ urlBase64ToUint8Array "SGV!bG8" = None.
Proof.
  assert (H : str_In "!" "SGV!bG8").
  { cbn. auto. }
  split; [exact H|].
  exact (urlBase64ToUint8Array_bad_character "SGV!bG8" "!" H
           eq_refl eq_refl ltac:(discriminate)).
Defined.

(** X5. Every text over the alphabet whose length does not leave the
    remainder 1 is accepted, canonical or not, and [n] characters give
    [3n/4] bytes, rounded down. *)
Theorem urlBase64ToUint8Array_accepts (base64String : string) :
  str_forallb is_key_char base64String = true ->
  (String.length base64String mod 4 <> 1)%nat ->
  exists bs,
    urlBase64ToUint8Array base64String = Some bs /\
    length bs = (3 * String.length base64String / 4)%nat.
Proof.
  intros Hkey Hlen. rewrite urlBase64ToUint8Array_data.
  set (t := str_map normalise_char base64String).
  assert (Ht : str_forallb is_base64_char t = true).
  { subst t. by rewrite str_forallb_map. }
  assert (Htlen : String.length t = String.length base64String).
  { apply str_map_length. }
  pose proof (key_padding_cases base64String) as Hpad.
  pose proof (Nat.div_mod_eq (String.length base64String) 4) as Hn.
  assert (Hcases : key_padding base64String = "" \/
                   key_padding base64String = "=" \/
                   key_padding base64String = "==").
  { destruct (String.length base64String mod 4)%nat as [|[|[|n]]];
      auto; lia. }
  assert (Hmod : (String.length (t +:+ key_padding base64String) mod 4 = 0)%nat).
  { rewrite str_length_app, Htlen.
    destruct (String.length base64String mod 4)%nat as [|[|[|[|n]]]] eqn:Hm;
      try lia; rewrite Hpad; cbn [String.length].
    - by rewrite Nat.add_0_r.
    - replace (String.length base64String + 2)%nat
        with (0 + (String.length base64String / 4 + 1) * 4)%nat by lia.
      by rewrite Nat.Div0.mod_add.
    - replace (String.length base64String + 1)%nat
        with (0 + (String.length base64String / 4 + 1) * 4)%nat by lia.
      by rewrite Nat.Div0.mod_add.
    - pose proof (Nat.mod_upper_bound (String.length base64String) 4). lia. }
  unfold forgiving_base64_decode.
  rewrite remove_whitespace_id.
  2:{ rewrite str_forallb_app. apply andb_true_iff. split.
      - eapply str_forallb_impl; [|exact Ht].
        intros c Hc. by rewrite base64_char_not_whitespace.
      - by destruct Hcases as [->|[->| ->]]. }
  rewrite Hmod. cbn [Nat.eqb].
  rewrite strip_padding_encoded by done.
  rewrite Htlen. destruct (Nat.eqb_spec (String.length base64String mod 4) 1);
    [done|].
  rewrite Ht. cbn [negb]. eexists. split; [reflexivity|].
  rewrite decode_loop_length by lia. by rewrite Htlen.
Qed.

Lemma urlBase64ToUint8Array_accepts_witness :
  exists bs, urlBase64ToUint8Array "QR" = Some bs /\ length bs = 1%nat.
Proof.
  exact (urlBase64ToUint8Array_accepts "QR" eq_refl ltac:(discriminate)).
Defined.

Section Base64Standard.
Local Open Scope Z_scope.

Lemma normalise_base64_char c :
  is_base64_char c = true -> normalise_char c = c.
Proof. by destruct c as [[] [] [] [] [] [] [] []]. Qed.

Lemma str_map_normalise_base64 s :
  str_forallb is_base64_char s = true -> str_map normalise_char s = s.
Proof.
  induction s as [|c s IH]; [done|]. cbn [str_forallb str_map].
  intros [Hc Hs]%andb_true_iff. by rewrite normalise_base64_char, IH.
Qed.

End Base64Standard.

(** X2. The script also decodes standard base64: a byte sequence encoded
    with [+] and [/], padded or not, comes back unchanged. *)
Theorem urlBase64ToUint8Array_standard_base64 (pad : bool) (bs : list Z) :
  Forall is_byte bs ->
  urlBase64ToUint8Array (base64_encode_with base64_alphabet pad bs) = Some bs.
Proof.
  intros Hbs. rewrite urlBase64ToUint8Array_decode.
  rewrite (encode_restore_padding base64_alphabet pad bs).
  rewrite replace_all_normalise, encode_pad_split, str_map_app.
  rewrite str_map_normalise_base64 by by apply encode_nopad_alphabet.
  replace (str_map normalise_char (pad_tail bs)) with (pad_tail bs)
    by by destruct (pad_tail_cases bs) as [->|[->| ->]].
  rewrite <- encode_pad_split. by apply forgiving_base64_decode_encode.
Qed.

Lemma urlBase64ToUint8Array_standard_base64_witness :
  Forall is_byte [255; 239; 62]%Z /\
  base64_encode_with base64_alphabet true [255; 239; 62]%Z = "/+8+" /\
  urlBase64ToUint8Array "/+8+" = Some [255; 239; 62]%Z.
Proof.
  assert (H : Forall is_byte [255; 239; 62]%Z).
  { repeat constructor; unfold is_byte; lia. }
  split; [exact H|]. split; [reflexivity|].
  exact (urlBase64ToUint8Array_standard_base64 true _ H).
Defined.

(** X11. The padding is computed from the length of the key as it is,
    whitespace included, while [atob] drops whitespace before it looks
    at the length.  So a key over the alphabet with one whitespace
    character in it, say a line feed at its end, is decoded (as the key
    without it) only when the key itself has a length that leaves the
    remainder 3; otherwise the script throws. *)
Theorem urlBase64ToUint8Array_whitespace (s1 s2 : string) (w : ascii) :
  is_ascii_whitespace w = true ->
  str_forallb is_key_char (s1 +:+ s2) = true ->
  urlBase64ToUint8Array (s1 +:+ String w s2)
  = if (String.length (s1 +:+ s2) mod 4 =? 3)%nat
    then urlBase64ToUint8Array (s1 +:+ s2)
    else None.
Proof.
  intros Hw Hkey. rewrite !urlBase64ToUint8Array_data.
  set (core := str_map normalise_char (s1 +:+ s2)).
  assert (Hcore : str_forallb is_base64_char core = true).
  { subst core. by rewrite str_forallb_map. }
  assert (Hlen : String.length core = String.length (s1 +:+ s2)).
  { apply str_map_length. }
  rewrite (forgiving_base64_decode_whitespace _
             (core +:+ key_padding (s1 +:+ String w s2))).
  2:{ rewrite !remove_whitespace_app. f_equal. subst core.
      rewrite !str_map_app. cbn [str_map].
      rewrite (normalise_char_whitespace w Hw).
      by apply remove_whitespace_skip. }
  assert (Hlen' : String.length (s1 +:+ String w s2)
                  = S (String.length (s1 +:+ s2))).
  { rewrite !str_length_app. cbn [String.length]. lia. }
  unfold key_padding. rewrite !forgiving_base64_decode_key by done.
  rewrite Hlen, Hlen'.
  set (n := String.length (s1 +:+ s2)).
  replace (S n mod 4) with ((n mod 4 + 1) mod 4)
    by (rewrite Nat.Div0.add_mod_idemp_l; f_equal; lia).
  rewrite <- !(Nat.Div0.add_mod_idemp_l n _ 4).
  pose proof (Nat.mod_upper_bound n 4 ltac:(lia)) as Hlt.
  destruct (n mod 4) as [|[|[|[|r]]]]; try lia; reflexivity.
Qed.

Lemma urlBase64ToUint8Array_whitespace_witness :
  urlBase64ToUint8Array "QUJ" = Some [65; 66]%Z /\
  urlBase64ToUint8Array (String.append "QUJ" (String Page.LF "")) = Some [65; 66]%Z /\
  urlBase64ToUint8Array "QUJD" = Some [65; 66; 67]%Z /\
  urlBase64ToUint8Array (String.append "QUJD" (String Page.LF "")) = None.
Proof.
  split; [reflexivity|]. split; [|split; [reflexivity|]].
  - exact (urlBase64ToUint8Array_whitespace "QUJ" "" Page.LF eq_refl eq_refl).
  - exact (urlBase64ToUint8Array_whitespace "QUJD" "" Page.LF eq_refl eq_refl).
Defined.

(** ** Where programs write *)

Section WriteFacts.
Context {Op Req : Type -> Type} {St : Type}.
Context (perform : forall X, Op X -> St -> X * St).
Context (W : forall X, Op X -> bool).

Lemma write_free_bind {A B} (p : prog Op Req A) (f : A -> prog Op Req B) :
  write_free W p -> (forall a, write_free W (f a)) ->
  write_free W (bind p f).
Proof. induction 1; cbn [bind]; auto using @write_free. Qed.

Lemma write_free_await {X} (r : Req X) : write_free W (@await Op Req X r).
Proof. constructor. intros [x|e]; constructor. Qed.

Lemma write_free_lift {A} (x : A + thrown) : write_free W (@lift Op Req A x).
Proof. destruct x; constructor. Qed.

Lemma write_free_do {X} (o : Op X) :
  W X o = false -> write_free W (@do Op Req X o).
Proof. intros. constructor; [done|]. constructor. Qed.

Lemma writes_last_bind {A B} (p : prog Op Req A) (f : A -> prog Op Req B) :
  write_free W p -> (forall a, writes_last W (f a)) ->
  writes_last W (bind p f).
Proof. induction 1; cbn [bind]; auto using @writes_last. Qed.

Lemma writes_last_advance {A} (p : prog Op Req A) st :
  writes_last W p ->
  let '(_, log, q) := advance perform p st in
  (Forall (fun en => wrote W en = false) log /\ writes_last W q) \/ safe q.
Proof.
  intros Hp. revert st.
  induction Hp as [a|e|X o k Ho Hk IH|X o k Hk|X r k Hk IH]; intros st.
  - left. split; constructor.
  - left. split; constructor.
  - cbn [advance]. destruct (perform X o st) as [x st1].
    specialize (IH x st1).
    destruct (advance perform (k x) st1) as [[st2 log] q].
    destruct IH as [[Hlog Hq]|Hq]; [left|by right].
    split; [|done]. by constructor.
  - cbn [advance]. destruct (perform X o st) as [x st1].
    pose proof (advance_safe perform (k x) st1 (Hk x)) as Hq.
    destruct (advance perform (k x) st1) as [[st2 log] q]. by right.
  - left. split; [by repeat constructor|by constructor].
Qed.

Lemma writes_last_Await_inv {A X} (r : Req X)
    (k : result X -> prog Op Req A) :
  writes_last W (Await r k) -> forall s, writes_last W (k s).
Proof.
  intros H.
  change (match Await r k with
          | Await r' k' => forall s, writes_last W (k' s)
          | _ => True
          end).
  by destruct H.
Qed.

(** A run that ends by throwing has not written. *)
Lemma writes_last_run {A} ts (p : prog Op Req A) st st' log e rest :
  writes_last W p ->
  run perform ts p st = (st', log, Throw e, rest) ->
  Forall (fun en => wrote W en = false) log.
Proof.
  revert p st st' log. induction ts as [|t ts IH]; intros p st st' log Hp.
  - rewrite run_nil. pose proof (writes_last_advance p st Hp) as H.
    destruct (advance perform p st) as [[st1 log1] p1].
    intros [= ? ? ? ?]; subst. destruct H as [[Hlog _]|Hsafe]; [done|].
    by apply (safe_not_Throw _ e) in Hsafe.
  - cbn [run]. pose proof (writes_last_advance p st Hp) as H.
    destruct (advance perform p st) as [[st1 log1] p1].
    destruct p1 as [a|e'|X o k|X r k]; try (intros Heq; discriminate Heq).
    + intros [= ? ? ? ?]; subst. destruct H as [[Hlog _]|Hsafe]; [done|].
      by apply (safe_not_Throw _ e) in Hsafe.
    + destruct H as [[Hlog Hp1]|Hsafe].
      * pose proof (writes_last_Await_inv r k Hp1 (answer t X r)) as Hk.
        specialize (IH (k (answer t X r)) (meanwhile t st1)).
        destruct (run perform ts _ _) as [[[st2 log2] p2] rest2].
        intros [= ? ? ? ?]; subst. apply Forall_app. split; [done|].
        by eapply IH.
      * pose proof (run_safe perform ts (k (answer t X r)) (meanwhile t st1)
                      (safe_Await_inv r k Hsafe _)) as Hrun.
        destruct (run perform ts _ _) as [[[st2 log2] p2] rest2].
        intros [= ? ? ? ?]; subst. by apply (safe_not_Throw _ e) in Hrun.
Qed.

End WriteFacts.

(** ** More on the push flow *)

Section PushFlowEdges.
Variable convert : json -> list Z + thrown.

Lemma write_free_subscribeUserToPush keys :
  write_free store_write (subscribeUserToPush convert keys).
Proof.
  unfold subscribeUserToPush, mbind, prog_bind, mret, prog_ret.
  apply write_free_bind; [apply write_free_await|intros registration].
  apply write_free_bind; [by apply write_free_do|intros _].
  apply write_free_bind; [apply write_free_lift|intros publicKey].
  apply write_free_bind; [apply write_free_lift|intros key].
  apply write_free_bind; [apply write_free_await|intros s]. constructor.
Qed.

Lemma writes_last_subscribe_and_display :
  writes_last store_write (subscribe_and_display convert).
Proof.
  unfold subscribe_and_display, fetchVapidKeys, mbind, prog_bind.
  apply writes_last_bind; [|intros keys].
  { apply write_free_bind; [apply write_free_await|intros resp].
    apply write_free_await. }
  apply writes_last_bind; [apply write_free_await|intros _].
  apply writes_last_bind; [apply write_free_subscribeUserToPush|].
  intros subscription. cbn [bind do].
  apply writes_last_Write. intros []. repeat constructor.
Qed.

Lemma advance_post_registration_stored pg S :
  state_subscription pg = Subscription S ->
  let post :=
    Fetch "/register"
      (Some (register_init (userId_value pg) (JObj (toJSON S)))) in
  exists k,
    advance perform (try_catch post_registration report) pg
    = (pg, [Did GetUserIdValue; Did GetSubscription; Asked post],
       Await post k) /\
    (forall x, k (Fulfilled x) = Ret tt) /\
    (forall e, k (Rejected e) = report e).
Proof.
  intros Hsub post. subst post. unfold post_registration.
  cbn -[register_init]. rewrite Hsub. cbn -[register_init].
  eexists. split; [reflexivity|]. by split.
Qed.

End PushFlowEdges.

(** X10. A first block that fails has written neither
    [state.subscription] nor [#details]: both are written only once the
    subscription has arrived, and nothing can fail after that. *)
Theorem failed_setup_writes_nothing convert ts pg st log e rest :
  run perform ts (subscribe_and_display convert) pg
  = (st, log, Throw e, rest) ->
  Forall (fun en => wrote store_write en = false) log.
Proof.
  apply writes_last_run, writes_last_subscribe_and_display.
Qed.

Lemma failed_setup_writes_nothing_witness :
  let ts := [quietly granted; quietly granted; quietly granted;
             quietly granted;
             quietly (rejecting (ErrorObject "NotAllowedError" "denied"))] in
  (run perform ts (subscribe_and_display convert_throws)
     (fresh_page "alice")).1.2
  = Throw (ErrorObject "NotAllowedError" "denied") /\
  Forall (fun en => wrote store_write en = false)
    (run perform ts (subscribe_and_display convert_throws)
       (fresh_page "alice")).1.1.2.
Proof.
  split; [reflexivity|].
  exact (failed_setup_writes_nothing convert_throws
    [quietly granted; quietly granted; quietly granted; quietly granted;
     quietly (rejecting (ErrorObject "NotAllowedError" "denied"))]
    (fresh_page "alice") _ _ _ _ eq_refl).
Defined.

(** X7. When the fetched JSON object has no [publicKey], or its
    [publicKey] is [null] or a string [atob] refuses,
    [subscribeUserToPush] throws an [Error] after it has registered the
    worker and called [update()], and before it calls
    [pushManager.subscribe]. *)
Theorem bad_key_stops_before_subscribe convert props t ts pg reg :
  answer t _ (Register "service_worker.js") = Fulfilled reg ->
  props !! "publicKey" = None \/
  props !! "publicKey" = Some JNull \/
  (exists s, props !! "publicKey" = Some (JStr s) /\
             urlBase64ToUint8Array s = None) ->
  exists e,
    instanceof_Error e = true /\
    application_server_key convert (JObj props) = inr e /\
    run perform (t :: ts) (subscribeUserToPush convert (JObj props)) pg
    = (set_floating_updates (S (floating_updates (meanwhile t pg)))
         (meanwhile t pg),
       [Asked (Register "service_worker.js"); Did (Update reg)],
       Throw e, ts).
Proof.
  intros Hreg Hkey.
  assert (He : exists e, instanceof_Error e = true /\
             application_server_key convert (JObj props) = inr e).
  { unfold application_server_key. cbn [get_property].
    destruct Hkey as [Hk|[Hk|(s & Hk & Hs)]]; rewrite Hk;
      cbn [call_urlBase64ToUint8Array]; rewrite ?Hs;
      eexists; (split; [|reflexivity]); reflexivity. }
  destruct He as (e & Herr & He). exists e. split; [done|]. split; [done|].
  unfold application_server_key in He.
  unfold subscribeUserToPush. cbn -[get_property call_urlBase64ToUint8Array].
  rewrite Hreg. cbn -[get_property call_urlBase64ToUint8Array].
  destruct (get_property (JObj props) "publicKey") as [publicKey|e'].
  - cbn -[call_urlBase64ToUint8Array]. rewrite He. by destruct ts.
  - injection He as ->. by destruct ts.
Qed.

Lemma bad_key_stops_before_subscribe_witness :
  exists e,
    instanceof_Error e = true /\
    application_server_key convert_throws (JObj ∅) = inr e /\
    run perform [quietly granted]
      (subscribeUserToPush convert_throws (JObj ∅)) (fresh_page "alice")
    = (set_floating_updates 1 (fresh_page "alice"),
       [Asked (Register "service_worker.js"); Did (Update a_registration)],
       Throw e, []).
Proof.
  exact (bad_key_stops_before_subscribe convert_throws ∅ (quietly granted)
           [] (fresh_page "alice") a_registration eq_refl
           (or_introl eq_refl)).
Defined.

(** X8. When the first block fails and a subscription of an earlier run
    is still stored in [state.subscription], [main] goes on and posts
    that subscription to [/register], with the user id the input holds
    at that moment. *)
Theorem stale_subscription_is_posted convert ts pg st log e S :
  run perform ts (subscribe_and_display convert) pg
  = (st, log, Throw e, []) ->
  state_subscription st = Subscription S ->
  let post :=
    Fetch "/register"
      (Some (register_init (userId_value st) (JObj (toJSON S)))) in
  exists k,
    run perform ts (main convert) pg
    = (reported_state e st,
       log ++ reported e ++
         [Did GetUserIdValue; Did GetSubscription; Asked post],
       Await post k, []).
Proof.
  intros Hrun Hsub post.
  assert (Hsub' : state_subscription (reported_state e st) = Subscription S).
  { by destruct e. }
  destruct (advance_post_registration_stored _ S Hsub') as (k & Hadv & _).
  assert (Huser : userId_value (reported_state e st) = userId_value st).
  { by destruct e. }
  rewrite Huser in Hadv. exists k.
  rewrite main_blocks, run_bind, (run_try_report _ _ _ _ _ _ _ Hrun).
  rewrite run_nil, Hadv. by rewrite <- app_assoc.
Qed.

Lemma stale_subscription_is_posted_witness :
  let pg := set_state_subscription (Subscription example_subscription)
              (fresh_page "alice") in
  let ts := [quietly (rejecting (ErrorObject "TypeError" "Failed to fetch"))] in
  state_subscription pg = Subscription example_subscription /\
  register_posts (run perform ts (main convert_throws) pg).1.1.2
  = [JObj (register_body "alice" (JObj (toJSON example_subscription)))].
Proof.
  split; [reflexivity|].
  destruct (stale_subscription_is_posted convert_throws
    [quietly (rejecting (ErrorObject "TypeError" "Failed to fetch"))]
    (set_state_subscription (Subscription example_subscription)
       (fresh_page "alice"))
    (set_state_subscription (Subscription example_subscription)
       (fresh_page "alice"))
    [Asked (Fetch "/vapid.json" None)]
    (ErrorObject "TypeError" "Failed to fetch") example_subscription
    eq_refl eq_refl) as [k Hk].
  cbv zeta. rewrite Hk. reflexivity.
Defined.

(** X9. When every step succeeds, [main] ends normally whatever the
    server answers to the POST: the subscription is stored, [#details]
    shows its JSON text indented by four, nothing has been written to
    [#state], and one [update()] has been started. *)
Theorem main_succeeds convert pg t1 t2 t3 t4 t5 t6
    resp keys perm reg key S resp' :
  answer t1 _ (Fetch "/vapid.json" None) = Fulfilled resp ->
  answer t2 _ (ResponseJson resp) = Fulfilled keys ->
  answer t3 _ RequestPermission = Fulfilled perm ->
  answer t4 _ (Register "service_worker.js") = Fulfilled reg ->
  application_server_key convert keys = inl key ->
  answer t5 _ (Subscribe reg true key) = Fulfilled S ->
  (forall init, answer t6 _ (Fetch "/register" init) = Fulfilled resp') ->
  let before := meanwhile t4 (meanwhile t3 (meanwhile t2 (meanwhile t1 pg))) in
  let arrived :=
    meanwhile t5
      (set_floating_updates (Datatypes.S (floating_updates before)) before) in
  let r := run perform [t1; t2; t3; t4; t5; t6] (main convert) pg in
  r.1.2 = Ret tt /\
  r.1.1.1
  = meanwhile t6
      (set_details_textContent
         (Json {| indent := 4; denotes := JObj (toJSON S) |})
         (set_state_subscription (Subscription S) arrived)) /\
  state_writes r.1.1.2 = [] /\
  length (register_posts r.1.1.2) = 1%nat /\
  r.2 = [].
Proof.
  intros H1 H2 H3 H4 Hkey H5 H6 before arrived r.
  subst r arrived before. unfold application_server_key in Hkey.
  unfold main, subscribe_and_display, fetchVapidKeys,
    subscribeUserToPush, post_registration.
  cbn -[register_init get_property call_urlBase64ToUint8Array].
  rewrite H1. cbn -[register_init get_property call_urlBase64ToUint8Array].
  rewrite H2. cbn -[register_init get_property call_urlBase64ToUint8Array].
  rewrite H3. cbn -[register_init get_property call_urlBase64ToUint8Array].
  rewrite H4. cbn -[register_init get_property call_urlBase64ToUint8Array].
  destruct (get_property keys "publicKey") as [publicKey|e]; [|done].
  cbn -[register_init call_urlBase64ToUint8Array]. rewrite Hkey.
  cbn -[register_init]. rewrite H5. cbn -[register_init].
  rewrite H6. by cbn -[register_init].
Qed.

Lemma main_succeeds_witness :
  let r := run perform (replicate 6 (quietly granted))
             (main convert_throws) (fresh_page "alice") in
  r.1.2 = Ret tt /\
  state_subscription r.1.1.1 = Subscription example_subscription /\
  state_childNodes r.1.1.1 = [] /\
  floating_updates r.1.1.1 = 1%nat.
Proof.
  pose proof (main_succeeds convert_throws (fresh_page "alice")
    (quietly granted) (quietly granted) (quietly granted)
    (quietly granted) (quietly granted) (quietly granted)
    a_response example_keys "granted" a_registration
    [72; 101; 108; 108; 111]%Z example_subscription a_response
    eq_refl eq_refl eq_refl eq_refl eq_refl eq_refl (fun _ => eq_refl))
    as (Hend & Hstate & _).
  cbv zeta. split; [exact Hend|].
  change (replicate 6 (quietly granted))
    with [quietly granted; quietly granted; quietly granted;
          quietly granted; quietly granted; quietly granted].
  rewrite Hstate. by split.
Defined.
